(** * linguini-sim: the lucky-imaging engine of [lisim.py]

    A shallow embedding of the alignment, selection and stacking code of
    [lisim.py] together with the statements checked against it.

    Conventions of the embedding.
    - A 2-D numpy array is a list of rows, a 3-D stack a list of frames.
      numpy arrays are rectangular by construction; where a statement needs
      the shape it is stated with [has_shape].
    - Pixel arithmetic is generic in a [Scalar] structure holding exactly the
      operations the code applies to [np.float64] values.  Two instances are
      given: [float_scalar], IEEE binary64 as implemented by the kernel's
      primitive floats, and [Qc_scalar], exact rational arithmetic.
    - Routines of scipy, astropy, pyfftw and numpy's sort are not part of the
      repository; they are the fields of the [Libs] structure.
    - Python exceptions are the [Raise] results of an error monad; the calls
      made on frames are recorded in a trace. *)

From Stdlib Require Import ZArith QArith Qround Qcanon Floats Lia Lqa Ascii String.
From stdpp Require Import base tactics option list sorting strings gmap.

Local Open Scope nat_scope.

(** ** Exceptions and the two monads *)

Inductive exn :=
| UserWarning
| NameError (name : string)
| IndexError
| ValueError.

Inductive result (A : Type) :=
| Ok (a : A)
| Raise (e : exn).
Arguments Ok {A} a.
Arguments Raise {A} e.

#[global] Instance result_ret : MRet result := @Ok.
#[global] Instance result_bind : MBind result := λ A B f m,
  match m with
  | Ok a => f a
  | Raise e => Raise e
  end.

(** What [lucky_imaging] does to the frames it is given. *)
Inductive event :=
| EvReference              (* a peak/centroid/fit of the reference image *)
| EvShift (k : nat)        (* the shift function applied to frame [k] *)
| EvRamp                   (* [edge_ramp] applied to the shifted frames *)
| EvTransform              (* Fourier transforms of the shifted frames *)
| EvCombine.               (* the frames (and reference) combined *)

Definition trace := list event.

(** A computation that may raise and that appends to the trace. *)
Definition M (A : Type) : Type := trace → result A * trace.

#[global] Instance M_ret : MRet M := λ A a t, (Ok a, t).
#[global] Instance M_bind : MBind M := λ A B f m t,
  match m t with
  | (Ok a, t') => f a t'
  | (Raise e, t') => (Raise e, t')
  end.

Definition lift {A} (r : result A) : M A := λ t, (r, t).
Definition tick (e : event) : M unit := λ t, (Ok tt, t ++ [e]).
Definition raise {A} (e : exn) : M A := lift (Raise e).

(** ** Scalars *)

Class Scalar (F : Type) := {
  f0 : F;
  fadd : F → F → F;
  fsub : F → F → F;
  fmul : F → F → F;
  fdiv : F → F → F;
  fopp : F → F;
  fltb : F → F → bool;          (* [x < y] *)
  of_Z : Z → F                   (* conversion of a Python/numpy integer *)
}.

(** [np.sqrt] on scalars. *)
Class Sqrt (F : Type) := fsqrt : F → F.

(** The comparison is a strict weak order: what [<] is on [np.float64]
    values that are not NaN. *)
Class ScalarOrder (F : Type) `{Scalar F} := {
  fltb_irrefl : ∀ x, fltb x x = false;
  fltb_trans : ∀ x y z, fltb x y = true → fltb y z = true → fltb x z = true;
  fltb_negtrans : ∀ x y z, fltb x y = false → fltb y z = false → fltb x z = false
}.

(** binary64.  [float_of_Z] is exact for [|z| < 2^53]. *)
Definition float_of_Z (z : Z) : float :=
  match z with
  | Z0 => 0%float
  | Zpos _ => PrimFloat.of_uint63 (Uint63.of_Z z)
  | Zneg p => PrimFloat.opp (PrimFloat.of_uint63 (Uint63.of_Z (Zpos p)))
  end.

#[global] Instance float_scalar : Scalar float := {|
  f0 := 0%float;
  fadd := PrimFloat.add;
  fsub := PrimFloat.sub;
  fmul := PrimFloat.mul;
  fdiv := PrimFloat.div;
  fopp := PrimFloat.opp;
  fltb := PrimFloat.ltb;
  of_Z := float_of_Z
|}.

#[global] Instance float_sqrt : Sqrt float := PrimFloat.sqrt.

(** Exact arithmetic on canonical rationals (division by zero gives 0). *)
Definition Qc_ltb (x y : Qc) : bool :=
  match (x ?= y)%Qc with Lt => true | _ => false end.

#[global] Instance Qc_scalar : Scalar Qc := {|
  f0 := 0%Qc;
  fadd := Qcplus;
  fsub := Qcminus;
  fmul := Qcmult;
  fdiv := Qcdiv;
  fopp := Qcopp;
  fltb := Qc_ltb;
  of_Z := λ z, Q2Qc (inject_Z z)
|}.

(** ** Arrays *)

Abbreviation image F := (list (list F)) (only parsing).
Abbreviation stack F := (list (list (list F))) (only parsing).

Section arrays.
Context {F : Type} `{Scalar F}.

Definition shape2 {A} (im : list (list A)) : nat * nat :=
  (length im, length (default [] (head im))).

Definition has_shape {A} (h w : nat) (im : list (list A)) : Prop :=
  length im = h ∧ Forall (λ r, length r = w) im.

(** [im.flatten()] *)
Definition flatten {A} (im : list (list A)) : list A := concat im.

(** [im[i, j]] for an index in range. *)
Definition at2 {A} (d : A) (im : list (list A)) (i j : nat) : A :=
  nth j (nth i im []) d.

(** The array [[f i j]] of shape [(h, w)]. *)
Definition grid {A} (h w : nat) (f : nat → nat → A) : list (list A) :=
  map (λ i, map (f i) (seq 0 w)) (seq 0 h).

Definition zeros (h w : nat) : image F := grid h w (λ _ _, f0).

(** [np.sum] of a 1-D array, accumulated from left to right. *)
Definition np_sum (l : list F) : F :=
  match l with
  | [] => f0
  | x :: r => fold_left fadd r x
  end.

Definition np_mean (l : list F) : F :=
  fdiv (np_sum l) (of_Z (Z.of_nat (length l))).

(** Python's [max(seq)]: the first element no later one exceeds. *)
Definition py_max (l : list F) : result F :=
  match l with
  | [] => Raise ValueError
  | x :: r => Ok (fold_left (λ best y, if fltb best y then y else best) r x)
  end.

(** [np.argmax] of a 1-D array: the index of the first maximum. *)
Fixpoint argmax_from (best : F) (besti i : nat) (l : list F) : nat :=
  match l with
  | [] => besti
  | x :: r =>
      if fltb best x then argmax_from x i (S i) r
      else argmax_from best besti (S i) r
  end.

Definition np_argmax (l : list F) : result nat :=
  match l with
  | [] => Raise ValueError
  | x :: r => Ok (argmax_from x 0 1 r)
  end.

(** [np.unravel_index(idx, (h, w))], row-major. *)
Definition unravel_index (idx : nat) (shp : nat * nat) : nat * nat :=
  (idx / snd shp, idx mod snd shp).

Definition img_map (f : F → F) (im : image F) : image F := map (map f) im.

Definition img_zip (f : F → F → F) (a b : image F) : image F :=
  zip_with (zip_with f) a b.

Definition img_add : image F → image F → image F := img_zip fadd.

(** [im / c] for a scalar [c]. *)
Definition img_divs (im : image F) (c : F) : image F :=
  img_map (λ x, fdiv x c) im.

(** [im - np.mean(im.flatten())] *)
Definition subtract_mean (im : image F) : image F :=
  let m := np_mean (flatten im) in img_map (λ x, fsub x m) im.

(** [np.sum(st, axis=0)] for a stack of [(h, w)] frames. *)
Definition sum_axis0 (h w : nat) (st : stack F) : image F :=
  match st with
  | [] => zeros h w
  | x :: r => fold_left img_add r x
  end.

(** [st[idxs]]: fancy indexing of a stack by a list of frame indices. *)
Definition take_frames (st : stack F) (idxs : list nat) : stack F :=
  map (λ k, nth k st []) idxs.

(** [im[::-1, ::-1]] *)
Definition flip2 (im : image F) : image F := reverse (map reverse im).

(** Modelled from the spec: [imutils.centre_crop(im, (h, w))] is not among
    the sources.  It returns the centred window of [h] rows and [w]
    columns ("cropping"); the window starts at half the size difference. *)
Definition centre_crop {A} (im : list (list A)) (sz : nat * nat) : list (list A) :=
  let '(h0, w0) := shape2 im in
  let top := (h0 - fst sz) / 2 in
  let left := (w0 - snd sz) / 2 in
  map (λ r, take (snd sz) (drop left r)) (take (fst sz) (drop top im)).

(** *** [np.pad(..., mode='linear_ramp')], end value 0

    The ramp that precedes an edge value [e] over [b] cells is
    [e + (b - i) * ((0 - e) / b)] for [i = 0 .. b-1]; the ramp that follows
    it is [e + (i + 1) * ((0 - e) / b)]. *)
Definition ramp_slope (b : nat) (e : F) : F :=
  fdiv (fsub f0 e) (of_Z (Z.of_nat b)).

Definition ramp_before (b : nat) (e : F) : list F :=
  map (λ i, fadd (fmul (of_Z (Z.of_nat (b - i))) (ramp_slope b e)) e) (seq 0 b).

Definition ramp_after (b : nat) (e : F) : list F :=
  map (λ i, fadd (fmul (of_Z (Z.of_nat (S i))) (ramp_slope b e)) e) (seq 0 b).

(** Padding of one row along its own axis. *)
Definition pad_row (b : nat) (r : list F) : list F :=
  match r with
  | [] => []
  | x :: _ => ramp_before b x ++ r ++ ramp_after b (List.last r x)
  end.

(** The [i]-th of the [b] rows put before (after) the row [edge]. *)
Definition ramp_row_before (b i : nat) (edge : list F) : list F :=
  map (λ e, nth i (ramp_before b e) f0) edge.

Definition ramp_row_after (b i : nat) (edge : list F) : list F :=
  map (λ e, nth i (ramp_after b e) f0) edge.

(** Axis 0 is padded first, axis 1 afterwards. *)
Definition pad_rows (b : nat) (im : image F) : image F :=
  match im with
  | [] => []
  | r0 :: _ =>
      map (λ i, ramp_row_before b i r0) (seq 0 b) ++ im ++
      map (λ i, ramp_row_after b i (List.last im r0)) (seq 0 b)
  end.

Definition pad_linear_ramp (b : nat) (im : image F) : image F :=
  if b is 0 then im else map (pad_row b) (pad_rows b im).


(** [edge_ramp(im, buff)], lisim.py 654-672. *)
Definition edge_ramp2 (im : image F) (buff : nat) : image F :=
  let '(h, w) := shape2 im in
  let im := centre_crop im (h - 2 * buff, w - 2 * buff) in
  pad_linear_ramp buff im.


End arrays.

(** ** Library routines *)

(** Complex numbers as pyfftw returns them. *)
Class Complex (F C : Type) := {
  czero : C;
  cadd : C → C → C;
  cabs : C → F;                  (* [np.abs] *)
  cdiv_int : C → Z → C           (* division by a Python integer *)
}.

(** Initial parameters of an [astropy] 2-D Gaussian model. *)
Record gauss_init (F : Type) := GaussInit {
  g_amplitude : F;
  g_x_mean : F;
  g_y_mean : F;
  g_x_stddev : F;
  g_y_stddev : F
}.
Arguments GaussInit {F}.

Class Libs (F C : Type) := {
  (** [scipy.ndimage.interpolation.shift(image, shift)] *)
  ndshift : image F → F * F → image F;
  (** [scipy.signal.fftconvolve(a, b, 'same')] *)
  fftconvolve_same : image F → image F → image F;
  (** [LevMarLSQFitter()(p_init, X, Y, data)]: the fitted [(x_mean, y_mean)] *)
  fit_gaussian2d : gauss_init F → image F → image F → image F → F * F;
  (** [np.argsort] of a 1-D array *)
  argsort : list F → list nat;
  (** [pyfftw.interfaces.numpy_fft.fft2] and [ifft2] of one 2-D array *)
  fft2 : image F → list (list C);
  ifft2 : list (list C) → list (list C);
  (** [imutils.gaussian_smooth(im, sigma)] *)
  gaussian_smooth : image F → Q → image F
}.

(** What numpy documents of [argsort]: a permutation of the indices along
    which the values never decrease. *)
Class ArgsortSpec (F C : Type) `{Scalar F} `{Libs F C} := {
  argsort_perm : ∀ l : list F, argsort l ≡ₚ seq 0 (length l);
  argsort_sorted : ∀ (l : list F) (d : F) (p q : nat),
    p ≤ q → q < length l →
    fltb (nth (nth q (argsort l) 0) l d) (nth (nth p (argsort l) 0) l d) = false
}.

(** The library routines keep the shape of their argument. *)
Class LibsShape (F C : Type) `{Libs F C} := {
  ndshift_shape : ∀ h w (im : image F) s,
    has_shape h w im → has_shape h w (ndshift im s);
  fft2_shape : ∀ h w (im : image F), has_shape h w im → has_shape h w (fft2 im);
  fftconvolve_shape : ∀ h w (a b : image F),
    has_shape h w a → has_shape h w (fftconvolve_same a b)
}.

(** ** Strings and configuration numbers *)

Definition lower_ascii (c : ascii) : ascii :=
  let n := Ascii.nat_of_ascii c in
  if (65 <=? n) && (n <=? 90) then Ascii.ascii_of_nat (n + 32) else c.

(** [str.lower()] on a byte string *)
Fixpoint lower (s : string) : string :=
  match s with
  | EmptyString => EmptyString
  | String c r => String (lower_ascii c) (lower r)
  end.

(** [np.round]: to the nearest integer, halves to the even one. *)
Definition np_round (q : Q) : Z :=
  let fl := Qfloor q in
  match Qcompare (q - inject_Z fl) (1 # 2) with
  | Lt => fl
  | Gt => (fl + 1)%Z
  | Eq => if Z.even fl then fl else (fl + 1)%Z
  end.

(** [np.ceil] *)
Definition np_ceil (q : Q) : Z := Qceiling q.

(** [l[:n]] *)
Definition slice_to {A} (n : Z) (l : list A) : list A :=
  if (0 <=? n)%Z then take (Z.to_nat n) l
  else take (length l - Z.to_nat (- n)) l.

(** [l[-k:]] for [k ≥ 1] *)
Definition lastn {A} (k : nat) (l : list A) : list A := drop (length l - k) l.

(** The value bound to [N]: a Python [int], or the [np.float64] that
    [np.ceil] returns. *)
Inductive pynum :=
| PyInt (n : Z)
| PyFloat (q : Q).

(** ["{:d}".format(n)] *)
Definition format_d (n : pynum) : result unit :=
  match n with
  | PyInt _ => Ok tt
  | PyFloat _ => Raise ValueError
  end.

(** ** The shift functions *)

(** The [images] argument of [lucky_imaging]: a 3-D stack, or an array with
    another number of axes.  For five axes and more the code goes on with
    [np.squeeze(images[0])], given here when that is a 3-D stack. *)
Inductive images_arg (F : Type) :=
| Stack3 (st : stack F)
| OtherDim (ndim : nat) (squeezed_first : option (stack F)).
Arguments Stack3 {F} st.
Arguments OtherDim {F} ndim squeezed_first.

(** Keyword arguments of [lucky_imaging]. *)
Record options (F : Type) := Options {
  mode : string;
  image_ref : option (image F);
  fsr : Q;
  bid_area : option (nat * nat);
  N : option nat;
  centroid_threshold : F;
  sub_pixel_shift : bool;
  buff_xcorr : nat;
  buff_fas : nat;
  cutoff_freq_frac : Q;
  sigma_kernel : Q;
  use_vals_outside_cutoff_freq : bool;
  stacking_method : string;
  timeit : bool
}.
Arguments Options {F}.
Arguments mode {F}. Arguments image_ref {F}. Arguments fsr {F}.
Arguments bid_area {F}. Arguments N {F}. Arguments centroid_threshold {F}.
Arguments sub_pixel_shift {F}. Arguments buff_xcorr {F}.
Arguments buff_fas {F}. Arguments cutoff_freq_frac {F}.
Arguments sigma_kernel {F}. Arguments use_vals_outside_cutoff_freq {F}.
Arguments stacking_method {F}. Arguments timeit {F}.

Section lisim.
Context {F C : Type} `{Scalar F} `{Complex F C} `{Libs F C}.

(** [shift_pp], lisim.py 194-211.  With a bid area the argument of
    [rotateAndCrop] is the name [images], which is bound neither in the
    function nor at module level. *)
Definition shift_pp (img : image F) (img_ref_peak_idx : nat * nat)
    (fsr : Q) (bid_area : option (nat * nat)) : result (image F * (Z * Z) * F) :=
  sub_image ← (match bid_area with
               | Some _ => Raise (NameError "images")
               | None => Ok img
               end);
  idx ← np_argmax (flatten sub_image);
  let img_peak_idx := unravel_index idx (shape2 sub_image) in
  let rel_shift_idx :=
    ((Z.of_nat (fst img_ref_peak_idx) - Z.of_nat (fst img_peak_idx))%Z,
     (Z.of_nat (snd img_ref_peak_idx) - Z.of_nat (snd img_peak_idx))%Z) in
  let image_shifted :=
    ndshift img (of_Z (fst rel_shift_idx), of_Z (snd rel_shift_idx)) in
  peak_pixel_val ← py_max (flatten sub_image);
  mret (image_shifted,
        ((- fst rel_shift_idx)%Z, (- snd rel_shift_idx)%Z),
        peak_pixel_val).

(** [_centroid], lisim.py 619-632.  The quotients are numpy scalar
    divisions: they return a value for every divisor. *)
Definition _centroid (img : image F) : F * F :=
  let '(height, width) := shape2 img in
  let X := grid height width (λ _ j, of_Z (Z.of_nat j)) in
  let Y := grid height width (λ i _, of_Z (Z.of_nat i)) in
  let M_10 := np_sum (flatten (img_zip fmul X img)) in
  let M_01 := np_sum (flatten (img_zip fmul Y img)) in
  let M_00 := np_sum (flatten img) in
  (fdiv M_01 M_00, fdiv M_10 M_00).

(** [image_subtracted_bg[image < t] = 0] on a copy of [image] *)
Definition threshold (img : image F) (t : F) : image F :=
  img_map (λ x, if fltb x t then f0 else x) img.

(** [shift_centroid], lisim.py 214-230. *)
Definition shift_centroid (img : image F) (img_ref_peak_idx : F * F)
    (centroid_threshold : F) : result (image F * (F * F)) :=
  m ← py_max (flatten img);
  let image_subtracted_bg := threshold img (fmul centroid_threshold m) in
  let img_peak_idx := _centroid image_subtracted_bg in
  let rel_shift_idx :=
    (fsub (fst img_ref_peak_idx) (fst img_peak_idx),
     fsub (snd img_ref_peak_idx) (snd img_peak_idx)) in
  let image_shifted := ndshift img rel_shift_idx in
  mret (image_shifted, (fopp (fst rel_shift_idx), fopp (snd rel_shift_idx))).

(** [np.mgrid[-n/2 : n/2]] at position [k], with true division *)
Definition mgrid_at (n k : nat) : F :=
  fadd (fdiv (of_Z (- Z.of_nat n)) (of_Z 2)) (of_Z (Z.of_nat k)).

(** [shift_xcorr], lisim.py 233-272. *)
Definition shift_xcorr (img image_ref : image F) (buff_xcorr : nat)
    (sub_pixel_shift : bool) : result (image F * (F * F)) :=
  let image_subtracted_bg := subtract_mean img in
  let image_ref_subtracted_bg := subtract_mean image_ref in
  let '(height, width) := shape2 img in
  let corr := fftconvolve_same image_ref_subtracted_bg (flip2 image_subtracted_bg) in
  m ← py_max (flatten corr);
  let corr := img_divs corr m in
  idx ← np_argmax (flatten corr);
  let '(x_peak, y_peak) := unravel_index idx (shape2 corr) in
  let rel_shift_idx :=
    if sub_pixel_shift then
      let hn := height - 2 * buff_xcorr in
      let wn := width - 2 * buff_xcorr in
      let Y := grid hn wn (λ i _, mgrid_at hn i) in
      let X := grid hn wn (λ _ j, mgrid_at wn j) in
      let p_init :=
        match py_max (flatten corr) with
        | Ok amp =>
            if (x_peak <? hn) && (y_peak <? wn) then
              GaussInit amp (at2 f0 X x_peak y_peak) (at2 f0 Y x_peak y_peak)
                        (of_Z 5) (of_Z 5)
            else
              GaussInit (of_Z 1) (of_Z (Z.of_nat x_peak)) (of_Z (Z.of_nat y_peak))
                        (of_Z 1) (of_Z 1)
        | Raise _ =>
            GaussInit (of_Z 1) (of_Z (Z.of_nat x_peak)) (of_Z (Z.of_nat y_peak))
                      (of_Z 1) (of_Z 1)
        end in
      let window :=
        map (λ r, take wn (drop buff_xcorr r)) (take hn (drop buff_xcorr corr)) in
      let '(x_mean, y_mean) := fit_gaussian2d p_init X Y window in
      (y_mean, x_mean)
    else
      (fsub (of_Z (Z.of_nat x_peak)) (fdiv (of_Z (Z.of_nat height)) (of_Z 2)),
       fsub (of_Z (Z.of_nat y_peak)) (fdiv (of_Z (Z.of_nat width)) (of_Z 2))) in
  let image_shifted := ndshift img rel_shift_idx in
  mret (image_shifted, (fopp (fst rel_shift_idx), fopp (snd rel_shift_idx))).

(** [_gaussfit_peak], lisim.py 635-651. *)
Definition _gaussfit_peak (img : image F) : F * F :=
  let '(height, width) := shape2 img in
  let Y := grid height width (λ i _, mgrid_at height i) in
  let X := grid height width (λ _ j, mgrid_at width j) in
  let p_init := GaussInit (of_Z 1) (of_Z 0) (of_Z 0) (of_Z 1) (of_Z 1) in
  let '(x_mean, y_mean) := fit_gaussian2d p_init X Y img in
  (y_mean, x_mean).

(** [shift_gaussfit], lisim.py 275-288. *)
Definition shift_gaussfit (img : image F) (img_ref_peak_idx : F * F)
    : result (image F * (F * F)) :=
  let image_subtracted_bg := subtract_mean img in
  let peak_idx := _gaussfit_peak image_subtracted_bg in
  let rel_shift_idx :=
    (fopp (fsub (fst peak_idx) (fst img_ref_peak_idx)),
     fopp (fsub (snd peak_idx) (snd img_ref_peak_idx))) in
  let image_shifted := ndshift img rel_shift_idx in
  mret (image_shifted, (fopp (fst rel_shift_idx), fopp (snd rel_shift_idx))).

(** ** [_li_error_check], lisim.py 577-616

    The conversions to [np.float64] change no value of the model; they
    index element 0 of the flattened array and so fail on an empty one. *)
Definition first_element {A} (l : list A) : result unit :=
  match l with
  | [] => Raise IndexError
  | _ :: _ => Ok tt
  end.

Definition truthy (n : option nat) : bool :=
  match n with
  | Some (S _) => true
  | _ => false
  end.

Definition _li_error_check (images : images_arg F)
    (image_ref : option (image F)) (N : option nat)
    : result (stack F * image F * nat) :=
  _ ← (match images with
       | Stack3 st => first_element (flatten (flatten st))
       | OtherDim _ _ => Ok tt
       end);
  _ ← (match image_ref with
       | Some r => first_element (flatten r)
       | None => Ok tt
       end);
  st ← (match images with
        | Stack3 st => Ok st
        | OtherDim ndim (Some st) => if 4 <? ndim then Ok st else Raise UserWarning
        | OtherDim _ None => Raise UserWarning
        end);
  if truthy N && (length st <? default 0 N) then Raise UserWarning
  else
    match image_ref with
    | None =>
        let N := if truthy N then default 0 N else length st - 1 in
        first ← (match st with
                 | [] => Raise IndexError
                 | fr :: _ => Ok fr
                 end);
        mret (drop 1 st, first, N)
    | Some r =>
        first ← (match st with
                 | [] => Raise IndexError
                 | fr :: _ => Ok fr
                 end);
        if negb (bool_decide (shape2 r = shape2 first)) then Raise UserWarning
        else
          let N := if truthy N then default 0 N else length st in
          mret (st, r, N)
    end.
End lisim.

(** ** Stacking *)

Section stacking.
Context {F C : Type} `{Scalar F} `{Complex F C} `{Libs F C}.

(** Modelled from the spec: [obssim.median_combine(stack)] is not among the
    sources (the [obssim.py] at hand predates it).  The spec describes it
    as the "per-pixel median across the stack": the middle value of the
    sorted pixel values, the mean of the two middle ones for an even
    count. *)
Definition fle (x y : F) : Prop := fltb y x = false.

#[global] Instance fle_dec : RelDecision fle.
Proof. intros x y. unfold fle. apply _. Defined.

Definition median (l : list F) : F :=
  let s := merge_sort fle l in
  let n := length s in
  if Nat.even n then fdiv (fadd (nth (n / 2 - 1) s f0) (nth (n / 2) s f0)) (of_Z 2)
  else nth (n / 2) s f0.

Definition median_combine (st : stack F) : image F :=
  match st with
  | [] => []
  | fr :: _ =>
      let '(h, w) := shape2 fr in
      grid h w (λ i j, median (map (λ f, at2 f0 f i j) st))
  end.

(** The two stacking rules, lisim.py 347-353, 410-418 and 489-496.
    [count] is the value of [N]; with another [stacking_method]
    [image_stacked] stays unbound ([None]). *)
Definition combine (stacking_method : string) (image_ref : image F)
    (frames : stack F) (count : Z) : option (image F) :=
  if String.eqb stacking_method "median combine" then
    Some (median_combine (image_ref :: frames))
  else if String.eqb stacking_method "average" then
    let '(h, w) := shape2 image_ref in
    Some (img_divs (img_add image_ref (sum_axis0 h w frames)) (of_Z (count + 1)))
  else None.

(** ** Fourier amplitude selection, lisim.py 420-486 *)

(** [fftshift] along one axis: element 0 moves to position [n / 2]. *)
Definition fftshift1 {A} (l : list A) : list A :=
  let p := length l - length l / 2 in drop p l ++ take p l.

Definition fftshift2 {A} (a : list (list A)) : list (list A) :=
  fftshift1 (map fftshift1 a).

(** [int(np.round(cutoff_freq_frac * min(h, w)))] *)
Definition cutoff_freq_px (cutoff_freq_frac : Q) (h w : nat) : Z :=
  np_round (cutoff_freq_frac * inject_Z (Z.of_nat (Nat.min h w))).

(** [uv_map[i, j] == 1], that is [sqrt(U**2 + V**2) < cutoff_freq_px] with
    [U[i, j] = j - w/2] and [V[i, j] = i - h/2] in true division.  The
    test is evaluated exactly, on the doubled coordinates. *)
Definition uv_map (h w : nat) (cutoff : Z) (i j : nat) : bool :=
  (0 <? cutoff)%Z &&
  ((2 * Z.of_nat j - Z.of_nat w) ^ 2 + (2 * Z.of_nat i - Z.of_nat h) ^ 2
     <? 4 * cutoff ^ 2)%Z.

(** [max(1, int(np.round(fsr * N)))] *)
Definition N_frames_to_keep (fsr : Q) (N : nat) : nat :=
  Z.to_nat (Z.max 1 (np_round (fsr * inject_Z (Z.of_nat N)))).

(** [np.sum(vals, axis=2)] at one coordinate *)
Definition csum (l : list C) : C :=
  match l with
  | [] => czero
  | x :: r => fold_left cadd r x
  end.

(** [vals_to_keep[i, j] = vals]: numpy broadcasts one value over the row
    of length [k] and refuses any other length but [k]. *)
Definition assign_row (k : nat) (vals : list C) : result (list C) :=
  if length vals =? k then Ok vals
  else match vals with
       | [v] => Ok (replicate k v)
       | _ => Raise ValueError
       end.

Definition gridM {A} (h w : nat) (f : nat → nat → result A) : result (list (list A)) :=
  mapM (λ i, mapM (f i) (seq 0 w)) (seq 0 h).

(** [images_fft[idxs, i, j]] *)
Definition fft_at (images_fft : list (list (list C))) (idxs : list nat)
    (i j : nat) : list C :=
  map (λ f, at2 czero (nth f images_fft []) i j) idxs.

Definition fas_stack (images_shifted : stack F) (image_ref : image F)
    (N : nat) (o : options F) : M (image F) :=
  _ ← tick EvRamp;
  let images_shifted := map (λ fr, edge_ramp2 fr (buff_fas o)) images_shifted in
  let '(h, w) := shape2 image_ref in
  let k := N_frames_to_keep (fsr o) N in
  _ ← tick EvTransform;
  let images_fft := map (λ fr, fftshift2 (fft2 fr)) images_shifted in
  let cutoff := cutoff_freq_px (cutoff_freq_frac o) h w in
  let fft_sum : list (list C) := grid h w (λ _ _, czero) in
  (* outside the cutoff frequency *)
  fft_sum ← (if use_vals_outside_cutoff_freq o then
               max_pixel_vals ← lift (mapM (λ fr, py_max (flatten fr)) images_shifted);
               let idxs_to_keep := lastn k (argsort max_pixel_vals) in
               vals_to_keep ← lift (gridM h w (λ i j,
                 if uv_map h w cutoff i j then Ok (replicate k czero)
                 else assign_row k (fft_at images_fft idxs_to_keep i j)));
               mret (grid h w (λ i j,
                 cadd (at2 czero fft_sum i j) (csum (at2 [] vals_to_keep i j))))
             else mret fft_sum);
  (* within the cutoff frequency *)
  let images_fft_amp := map (map (map cabs)) images_fft in
  let images_fft_amp :=
    if negb (Qeq_bool (sigma_kernel o) 0) then
      map (λ a, gaussian_smooth a (sigma_kernel o)) images_fft_amp
    else images_fft_amp in
  vals_to_keep ← lift (gridM h w (λ i j,
    if uv_map h w cutoff i j then
      let idxs_to_keep :=
        lastn k (argsort (map (λ a, at2 f0 a i j) images_fft_amp)) in
      assign_row k (fft_at images_fft idxs_to_keep i j)
    else Ok (replicate k czero)));
  let fft_sum := grid h w (λ i j,
    cadd (at2 czero fft_sum i j) (csum (at2 [] vals_to_keep i j))) in
  _ ← tick EvCombine;
  mret (map (map cabs)
          (ifft2 (fftshift2 (map (map (λ z, cdiv_int z (Z.of_nat k))) fft_sum)))).
End stacking.

(** ** [lucky_imaging], lisim.py 291-502 *)

Section lucky.
Context {F C : Type} `{Scalar F} `{Complex F C} `{Libs F C}.

(** What the method branch leaves behind: the shift function for the
    frames, or (blind stack) the value already returned. *)
Inductive dispatched :=
| ShiftFun (shift_fun : image F → result (image F * (F * F) * option F))
| Returned (r : image F * list (F * F)).

Definition is_fas (li_method : string) : bool :=
  String.eqb li_method "fourier amplitude selection" || String.eqb li_method "fas".

Definition xcorr_fun (image_ref : image F) (o : options F)
    : image F → result (image F * (F * F) * option F) :=
  λ img, '(s, v) ← shift_xcorr img image_ref (buff_xcorr o) (sub_pixel_shift o);
         mret (s, v, None).

Definition pp_fun (img_ref_peak_idx : nat * nat) (o : options F)
    : image F → result (image F * (F * F) * option F) :=
  λ img, '(s, v, p) ← shift_pp img img_ref_peak_idx (fsr o) (bid_area o);
         mret (s, (of_Z (fst v), of_Z (snd v)), Some p).

(** lisim.py 318-366 *)
Definition select_method (li_method : string) (images : stack F)
    (image_ref : image F) (N : nat) (o : options F) : M dispatched :=
  if String.eqb li_method "cross-correlation" then
    mret (ShiftFun (xcorr_fun image_ref o))
  else if String.eqb li_method "gaussian fit" then
    _ ← tick EvReference;
    let img_ref_peak_idx := _gaussfit_peak (subtract_mean image_ref) in
    mret (ShiftFun (λ img,
      '(s, v) ← shift_gaussfit img img_ref_peak_idx; mret (s, v, None)))
  else if String.eqb li_method "peak pixel" then
    _ ← tick EvReference;
    let sub_image_ref :=
      match bid_area o with
      | Some sz => centre_crop image_ref sz
      | None => image_ref
      end in
    idx ← lift (np_argmax (flatten sub_image_ref));
    let img_ref_peak_idx := unravel_index idx (shape2 sub_image_ref) in
    mret (ShiftFun (pp_fun img_ref_peak_idx o))
  else if String.eqb li_method "centroid" then
    _ ← tick EvReference;
    m ← lift (py_max (flatten image_ref));
    let image_ref_subtracted_bg :=
      threshold image_ref (fmul (centroid_threshold o) m) in
    let img_ref_peak_idx := _centroid image_ref_subtracted_bg in
    mret (ShiftFun (λ img,
      '(s, v) ← shift_centroid img img_ref_peak_idx (centroid_threshold o);
      mret (s, v, None)))
  else if String.eqb li_method "blind stack" then
    _ ← tick EvCombine;
    let image_stacked := combine (stacking_method o) image_ref images (Z.of_nat N) in
    let rel_shift_idxs := replicate N (f0, f0) in
    match image_stacked with
    | Some s => mret (Returned (s, rel_shift_idxs))
    | None => raise (NameError "image_stacked")
    end
  else if is_fas li_method then
    mret (ShiftFun (xcorr_fun image_ref o))
  else raise UserWarning.

(** The shift function applied to the frames in turn, frame [k] first. *)
Fixpoint shift_frames (shift_fun : image F → result (image F * (F * F) * option F))
    (k : nat) (frames : stack F) : M (list (image F * (F * F) * option F)) :=
  match frames with
  | [] => mret []
  | fr :: rest =>
      _ ← tick (EvShift k);
      r ← lift (shift_fun fr);
      rs ← shift_frames shift_fun (S k) rest;
      mret (r :: rs)
  end.

Definition fsr_below_1 (o : options F) : bool := negb (Qle_bool 1 (fsr o)).

Definition unzip_results (rs : list (image F * (F * F) * option F))
    : stack F * list (F * F) * list F :=
  (map (λ r, fst (fst r)) rs, map (λ r, snd (fst r)) rs,
   map (λ r, default f0 (snd r)) rs).

(** lisim.py 371-400.  The pool maps the shift function over every frame of
    [images]; the loop visits [images[0]] to [images[N-1]].
    [peak_pixel_vals] is bound only where the code assigns it. *)
Definition align (shift_fun : image F → result (image F * (F * F) * option F))
    (images : stack F) (N : nat) (is_pp : bool) (o : options F)
    : M (stack F * list (F * F) * option (list F)) :=
  if String.eqb (mode o) "parallel" then
    results ← shift_frames shift_fun 0 images;
    match results with
    | [] => raise IndexError
    | _ :: _ =>
        let '(images_shifted, rel_shift_idxs, peaks) := unzip_results results in
        mret (images_shifted, rel_shift_idxs,
              if is_pp && fsr_below_1 o then Some peaks else None)
    end
  else if String.eqb (mode o) "serial" then
    results ← shift_frames shift_fun 0 (take N images);
    if length images <? N then raise IndexError
    else
      let '(images_shifted, rel_shift_idxs, peaks) := unzip_results results in
      mret (images_shifted, rel_shift_idxs,
            if is_pp && (0 <? N) then Some peaks else None)
  else raise UserWarning.

(** lisim.py 368-502: shifting every frame, then stacking. *)
Definition shift_and_stack
    (shift_fun : image F → result (image F * (F * F) * option F))
    (li_method : string) (images : stack F) (image_ref : image F) (N : nat)
    (o : options F) : M (image F * list (F * F)) :=
  let is_pp := String.eqb li_method "peak pixel" in
  '(images_shifted, rel_shift_idxs, peak_pixel_vals) ←
    align shift_fun images N is_pp o;
  '(image_stacked, N) ←
    (if is_pp && fsr_below_1 o then
       vals ← (match peak_pixel_vals with
               | Some v => mret v
               | None => raise (NameError "peak_pixel_vals")
               end);
       let sorted_idx := reverse (argsort vals) in
       let N := np_ceil (fsr o * inject_Z (Z.of_nat N)) in
       _ ← tick EvCombine;
       mret (combine (stacking_method o) image_ref
               (take_frames images_shifted (slice_to N sorted_idx)) N,
             PyFloat (inject_Z N))
     else if is_fas li_method then
       s ← fas_stack images_shifted image_ref N o;
       mret (Some s, PyInt (Z.of_nat N))
     else
       _ ← tick EvCombine;
       mret (combine (stacking_method o) image_ref images_shifted (Z.of_nat N),
             PyInt (Z.of_nat N)));
  _ ← (if timeit o then lift (format_d N) else mret tt);
  match image_stacked with
  | Some s => mret (s, rel_shift_idxs)
  | None => raise (NameError "image_stacked")
  end.

Definition lucky_imaging (images : images_arg F) (li_method : string)
    (o : options F) : M (image F * list (F * F)) :=
  '(images, image_ref, N) ← lift (_li_error_check images (image_ref o) (N o));
  let li_method := lower li_method in
  d ← select_method li_method images image_ref N o;
  match d with
  | Returned r => mret r
  | ShiftFun shift_fun =>
      shift_and_stack shift_fun li_method images image_ref N o
  end.

(** The method names [lucky_imaging] accepts, in lower case. *)
Definition supported_methods : list string :=
  ["cross-correlation"; "gaussian fit"; "peak pixel"; "centroid";
   "blind stack"; "fourier amplitude selection"; "fas"]%string.
End lucky.

(** ** [alignment_err], lisim.py 505-536

    The arrays live in a store addressed by references, so that writing to
    [errs_as] and not writing to the arguments is part of the model. *)

Section alignment.
Context {F : Type} `{Scalar F} `{Sqrt F}.

(** What the function prints or plots. *)
Inductive output :=
| Row (in0 in1 out0 out1 err_px err_as : F)
| Mean (m : F)
| Histogram (errs_as : image F).

Record world := World {
  arrays : gmap nat (image F);
  stdout : list output
}.

Definition St (A : Type) : Type := world → result A * world.

#[global] Instance St_ret : MRet St := λ A a s, (Ok a, s).








(** Row [k] of the array [alignment_err] returns, from row [k] of the
    applied and of the recovered shifts. *)
Definition err_row (plate_scale_as_px : F) (ra rb : list F) : list F :=
  let x := fmul (fsub (nth 0 ra f0) (nth 0 rb f0)) plate_scale_as_px in
  let y := fmul (fsub (nth 1 ra f0) (nth 1 rb f0)) plate_scale_as_px in
  [x; y; fsqrt (fadd (fmul x x) (fmul y y))].

Definition errs_of (plate_scale_as_px : F) (a b : image F) : image F :=
  zip_with (err_row plate_scale_as_px) a b.



End alignment.
Arguments world : clear implicits.
Arguments St : clear implicits.
Arguments output : clear implicits.

(** ** Interpretations used to evaluate the code on examples

    Every theorem below holds for all interpretations of the library
    routines.  To exhibit inputs, the routines are interpreted in the
    simplest way: no resampling, real-valued "complex" numbers without any
    transform, and a merge sort for [argsort]. *)

Definition real_complex {F : Type} `{Scalar F} : Complex F F := {|
  czero := f0;
  cadd := fadd;
  cabs := λ x, if fltb x f0 then fopp x else x;
  cdiv_int := λ x k, fdiv x (of_Z k)
|}.

Definition idx_le {F : Type} `{Scalar F} (l : list F) (a b : nat) : Prop :=
  fle (nth a l f0) (nth b l f0).

#[global] Instance idx_le_dec {F : Type} `{Scalar F} (l : list F) : RelDecision (idx_le l).
Proof. intros a b. unfold idx_le. apply _. Defined.

Definition sort_indices {F : Type} `{Scalar F} (l : list F) : list nat :=
  merge_sort (idx_le l) (seq 0 (length l)).

Definition identity_libs {F : Type} `{Scalar F} : Libs F F := {|
  ndshift := λ im _, im;
  fftconvolve_same := λ a _, a;
  fit_gaussian2d := λ _ _ _ _, (f0, f0);
  argsort := sort_indices;
  fft2 := λ im, im;
  ifft2 := λ a, a;
  gaussian_smooth := λ a _, a
|}.







(** What [fft_sum] holds at a bin of the disc before the selected values
    are added: zero, or zero plus the sum of the [k] zeros that the loop
    over the bins outside the disc left there. *)
Definition zero_acc {F C : Type} `{Complex F C} (use_outside : bool) (k : nat) : C :=
  if use_outside then cadd czero (csum (replicate k czero)) else czero.

(** [np.max] of a frame that has pixels *)
Definition frame_peak {F : Type} `{Scalar F} (fr : image F) : F :=
  match py_max (flatten fr) with
  | Ok m => m
  | Raise _ => f0
  end.

(** ** binary64 classes of values *)

Definition is_zero (x : float) : Prop := ∃ s, Prim2SF x = S754_zero s.
Definition zero_or_nan (x : float) : Prop := Prim2SF x = S754_nan ∨ is_zero x.

(** ** Example inputs *)

Definition unit_frame : image float := [[1]]%float.

(** The keyword arguments left at their defaults, but for those given. *)
Definition defaults {F : Type} `{Scalar F} (mode : string)
    (image_ref : option (image F)) (fsr : Q) (N : option nat)
    (stacking_method : string) (timeit : bool) : options F :=
  Options mode image_ref fsr None N (fdiv (of_Z 1) (of_Z 4)) true 25 32 1 0 true
          stacking_method timeit.



Definition shifts_applied : image float := [[3; 4]]%float.
Definition shifts_recovered : image float := [[0; 0]]%float.


Definition square_Qc (a b c d : Z) : image Qc :=
  [[Q2Qc (inject_Z a); Q2Qc (inject_Z b)]; [Q2Qc (inject_Z c); Q2Qc (inject_Z d)]].

(** Two 2×2 frames and a reference, and the options of a Fourier amplitude
    selection without edge ramp. *)
Definition fas_frames : stack Qc := [square_Qc 1 2 3 4; square_Qc 4 3 2 1].
Definition fas_reference : image Qc := square_Qc 1 2 3 5.
Definition fas_options : options Qc :=
  Options "serial" (Some fas_reference) 1 None None (Q2Qc (1 # 4)) false 0 0 1 0 true
          "average" true.


(** A sky-subtracted frame without positive pixel: the threshold
    [0.25 * max] is [-0.25] and every pixel lies below it. *)
Definition dark_frame : image float := [[-1; -2]; [-3; -4]]%float.


(** The same keyword arguments with another [mode]. *)
Definition with_mode {F : Type} (m : string) (o : options F) : options F :=
  Options m (image_ref o) (fsr o) (bid_area o) (N o) (centroid_threshold o)
          (sub_pixel_shift o) (buff_xcorr o) (buff_fas o) (cutoff_freq_frac o)
          (sigma_kernel o) (use_vals_outside_cutoff_freq o) (stacking_method o)
          (timeit o).
(** * Statements *)

(** ** Error monad and list plumbing *)

Lemma mapM_result_Ok {A B} (f : A → result B) (g : A → B) (l : list A) :
  (∀ x, x ∈ l → f x = Ok (g x)) → mapM f l = Ok (map g l).
Proof.
  induction l as [|a l IH]; intros Hf; [done|].
  cbn. rewrite (Hf a) by left. cbn.
  rewrite IH by (intros x Hx; apply Hf; by right). done.
Qed.

Lemma gridM_Ok {A} (h w : nat) (f : nat → nat → result A) (g : nat → nat → A) :
  (∀ i j, i < h → j < w → f i j = Ok (g i j)) →
  gridM h w f = Ok (grid h w g).
Proof.
  intros Hf. unfold gridM, grid.
  apply mapM_result_Ok. intros i Hi. apply elem_of_seq in Hi.
  apply mapM_result_Ok. intros j Hj. apply elem_of_seq in Hj.
  apply Hf; lia.
Qed.

Lemma at2_grid {A} (d : A) (h w : nat) (f : nat → nat → A) (i j : nat) :
  i < h → j < w → at2 d (grid h w f) i j = f i j.
Proof.
  intros Hi Hj. unfold at2, grid.
  rewrite (nth_indep _ [] (map (f 0) (seq 0 w))) by (rewrite length_map, length_seq; lia).
  rewrite (map_nth (λ i, map (f i) (seq 0 w)) (seq 0 h) 0 i).
  rewrite seq_nth by lia. cbn.
  rewrite (nth_indep _ d (f i 0)) by (rewrite length_map, length_seq; lia).
  rewrite (map_nth (f i) (seq 0 w) 0 j).
  rewrite seq_nth by lia. done.
Qed.

Lemma grid_has_shape {A} (h w : nat) (f : nat → nat → A) :
  has_shape h w (grid h w f).
Proof.
  split.
  - unfold grid. by rewrite length_map, length_seq.
  - unfold grid. apply Forall_forall. intros r Hr.
    apply list_elem_of_fmap in Hr as (i & -> & _).
    by rewrite length_map, length_seq.
Qed.

(** ** binary64 facts used for the centroid *)


Lemma float_eq_nan (x : float) : Prim2SF x = S754_nan → x = nan.
Proof. intros Hx. apply Prim2SF_inj. by rewrite Hx. Qed.

Lemma is_zero_add (x y : float) : is_zero x → is_zero y → is_zero (x + y)%float.
Proof.
  intros [sx Hx] [sy Hy]. unfold is_zero. rewrite add_spec, Hx, Hy.
  destruct sx, sy; cbn; eauto.
Qed.

Lemma zero_or_nan_add (x y : float) :
  zero_or_nan x → zero_or_nan y → zero_or_nan (x + y)%float.
Proof.
  intros [Hx|Hx] [Hy|Hy].
  - left. by rewrite add_spec, Hx, Hy.
  - left. destruct Hy as [s Hy]. by rewrite add_spec, Hx, Hy.
  - left. destruct Hx as [s Hx]. by rewrite add_spec, Hx, Hy.
  - right. by apply is_zero_add.
Qed.

Lemma zero_or_nan_mul (x y : float) : is_zero y → zero_or_nan (x * y)%float.
Proof.
  intros [s Hy]. unfold zero_or_nan, is_zero. rewrite mul_spec, Hy.
  destruct (Prim2SF x) as [sx|sx| |sx m e]; cbn; eauto.
Qed.

Lemma nan_div (x y : float) : zero_or_nan x → is_zero y → (x / y)%float = nan.
Proof.
  intros Hx [s Hy]. apply float_eq_nan. rewrite div_spec, Hy.
  destruct Hx as [->|[sx ->]]; done.
Qed.

Lemma sub_nan (x : float) : (x - nan)%float = nan.
Proof.
  apply float_eq_nan. rewrite sub_spec.
  change (Prim2SF nan) with S754_nan.
  by destruct (Prim2SF x).
Qed.

Lemma opp_nan : (- nan)%float = nan.
Proof. reflexivity. Qed.

Lemma np_sum_closed {F} `{Scalar F} (P : F → Prop) (l : list F) :
  P f0 → (∀ x y, P x → P y → P (fadd x y)) → Forall P l → P (np_sum l).
Proof.
  intros H0 Hadd Hl. destruct l as [|x r]; [done|].
  apply Forall_cons in Hl as [Hx Hr]. cbn.
  revert x Hx. induction Hr as [|y r Hy Hr IH]; intros x Hx; [done|].
  cbn. apply IH. by apply Hadd.
Qed.

Lemma Forall_img_zip {F} `{Scalar F} (P Q : F → Prop) (f : F → F → F) (a b : image F) :
  (∀ x y, Q y → P (f x y)) →
  Forall (Forall Q) b → Forall (Forall P) (img_zip f a b).
Proof.
  intros Hf Hb. revert a. unfold img_zip.
  induction Hb as [|rb b Hrb Hb IH]; intros [|ra a]; cbn; try constructor; [|by apply IH].
  clear -Hf Hrb. revert ra.
  induction Hrb as [|y rb Hy Hrb IH]; intros [|x ra]; cbn; constructor; auto.
Qed.

Lemma Forall_flatten {A} (P : A → Prop) (a : list (list A)) :
  Forall (Forall P) a → Forall P (flatten a).
Proof. unfold flatten. by rewrite Forall_concat. Qed.

Lemma is_zero_0 : is_zero 0%float.
Proof. by exists false. Qed.

(** The centroid of an image of zeros, of any shape, is (NaN, NaN). *)
Lemma centroid_zero_image (img : image float) :
  Forall (Forall is_zero) img → _centroid img = (nan, nan).
Proof.
  intros Himg. unfold _centroid. destruct (shape2 img) as [height width].
  assert (H00 : is_zero (np_sum (flatten img))).
  { apply np_sum_closed; [apply is_zero_0|apply is_zero_add|by apply Forall_flatten]. }
  assert (Hm : ∀ X : image float, zero_or_nan (np_sum (flatten (img_zip fmul X img)))).
  { intros X. apply np_sum_closed.
    - right. apply is_zero_0.
    - apply zero_or_nan_add.
    - apply Forall_flatten. eapply Forall_img_zip; [|exact Himg].
      intros x y Hy. by apply zero_or_nan_mul. }
  f_equal; apply nan_div; auto.
Qed.

(** C3 (as amended): for every binary64 frame that thresholding leaves
    without a non-zero pixel, the zeroth moment is zero, [_centroid] returns
    the quotients by it, (NaN, NaN), as ordinary values, and [shift_centroid]
    returns normally with NaN in both coordinates of its shift vector; no
    exception is raised. *)
Theorem shift_centroid_zero_mass_returns_nan {C : Type} (L : Libs float C)
    (img : image float) (img_ref_peak_idx : float * float)
    (centroid_threshold m : float) :
  py_max (flatten img) = Ok m →
  Forall (Forall is_zero) (threshold img (centroid_threshold * m)%float) →
  _centroid (threshold img (centroid_threshold * m)%float) = (nan, nan) ∧
  shift_centroid img img_ref_peak_idx centroid_threshold
    = Ok (ndshift img (nan, nan), (nan, nan)).
Proof.
  intros Hm Hz. pose proof (centroid_zero_image _ Hz) as Hc.
  split; [exact Hc|].
  unfold shift_centroid. rewrite Hm. cbn [mbind result_bind].
  change (fmul centroid_threshold m) with (centroid_threshold * m)%float.
  rewrite Hc. cbn [fst snd fsub fopp float_scalar mret result_ret].
  by rewrite !sub_nan.
Qed.

Lemma shift_centroid_zero_mass_returns_nan_witness :
  py_max (flatten dark_frame) = Ok (-1)%float ∧
  shift_centroid (H1:=identity_libs) dark_frame (0.5, 0.5)%float 0.25%float
    = Ok (dark_frame, (nan, nan)).
Proof.
  split; [reflexivity|].
  apply (shift_centroid_zero_mass_returns_nan identity_libs dark_frame
           (0.5, 0.5)%float 0.25%float (-1)%float).
  - reflexivity.
  - vm_compute. repeat constructor; by exists false.
Defined.

(** C3, counterexample: on [dark_frame] the centroid is (NaN, NaN) and
    [shift_centroid] returns a value instead of raising. *)
Lemma centroid_of_dark_frame_is_nan :
  _centroid (threshold dark_frame (0.25 * -1)%float) = (nan, nan) ∧
  ¬ (∃ e, shift_centroid (H1:=identity_libs) dark_frame (0.5, 0.5)%float 0.25%float
           = Raise e).
Proof.
  split; [vm_compute; reflexivity|].
  intros [e He]. vm_compute in He. discriminate He.
Qed.
(** ** Running the trace monad *)

Lemma M_bind_Ok {A B} (m : M A) (f : A → M B) (t t1 : trace) (a : A) :
  m t = (Ok a, t1) → (m ≫= f) t = f a t1.
Proof. intros Hm. unfold mbind, M_bind. by rewrite Hm. Qed.

Lemma M_bind_Raise {A B} (m : M A) (f : A → M B) (t t1 : trace) (e : exn) :
  m t = (Raise e, t1) → (m ≫= f) t = (Raise e, t1).
Proof. intros Hm. unfold mbind, M_bind. by rewrite Hm. Qed.

Lemma M_bind_Ok_inv {A B} (m : M A) (f : A → M B) (t t' : trace) (b : B) :
  (m ≫= f) t = (Ok b, t') → ∃ a t1, m t = (Ok a, t1) ∧ f a t1 = (Ok b, t').
Proof.
  unfold mbind, M_bind. destruct (m t) as [[a|e] t1]; [eauto|discriminate].
Qed.

Section method_errors.
Context {F C : Type} `{Scalar F} `{Complex F C} `{Libs F C}.

Lemma select_method_unsupported (m : string) (images : stack F)
    (image_ref : image F) (n : nat) (o : options F) (t : trace) :
  m ∉ supported_methods →
  select_method m images image_ref n o t = (Raise UserWarning, t).
Proof.
  intros Hm. unfold select_method, is_fas.
  assert (Hne : ∀ s, s ∈ supported_methods → String.eqb m s = false).
  { intros s Hs. apply String.eqb_neq. intros ->. contradiction. }
  rewrite !Hne by (unfold supported_methods; set_solver).
  reflexivity.
Qed.

(** C8: a method name outside the supported set makes [lucky_imaging] raise
    with an empty trace: no reference analysis, no shift of any frame, no
    ramp, transform or combination has taken place.  The exception is the
    [UserWarning] of the method dispatch whenever the input check passes
    (otherwise it is the exception of the input check, raised earlier
    still). *)
Theorem unsupported_method_raises_before_any_frame (images : images_arg F)
    (li_method : string) (o : options F) :
  lower li_method ∉ supported_methods →
  ∃ e, lucky_imaging images li_method o [] = (Raise e, []) ∧
       (∀ r, _li_error_check images (image_ref o) (N o) = Ok r → e = UserWarning).
Proof.
  intros Hm. unfold lucky_imaging.
  destruct (_li_error_check images (image_ref o) (N o)) as [[[st r] n]|e] eqn:Hc.
  - exists UserWarning. split; [|done].
    erewrite M_bind_Ok by reflexivity. cbn beta iota zeta.
    erewrite M_bind_Raise; [done|]. by apply select_method_unsupported.
  - exists e. split; [done|]. intros r Hr. discriminate Hr.
Qed.
End method_errors.

Lemma unsupported_method_raises_before_any_frame_witness :
  (lower "Drizzle" ∉ supported_methods) ∧
  (∃ e, lucky_imaging (H0:=real_complex) (H1:=identity_libs)
          (Stack3 [unit_frame; unit_frame]) "Drizzle"
          (defaults "serial" None 1 None "average" true) [] = (Raise e, []) ∧
        (∀ r, _li_error_check (Stack3 [unit_frame; unit_frame]) None None = Ok r →
              e = UserWarning)).
Proof.
  assert (Hm : lower "Drizzle" ∉ supported_methods).
  { vm_compute. intros Hin. repeat (apply elem_of_cons in Hin as [Hin|Hin]; [discriminate Hin|]).
    by apply elem_of_nil in Hin. }
  split; [exact Hm|].
  exact (unsupported_method_raises_before_any_frame (H0:=real_complex) (H1:=identity_libs)
           (Stack3 [unit_frame; unit_frame]) "Drizzle"
           (defaults "serial" None 1 None "average" true) Hm).
Defined.
Section shift_rows.
Context {F C : Type} `{Scalar F} `{Complex F C} `{Libs F C}.

Lemma shift_frames_length (f : image F → result (image F * (F * F) * option F))
    (frames : stack F) (k : nat) (t t' : trace) rs :
  shift_frames f k frames t = (Ok rs, t') → length rs = length frames.
Proof.
  revert k t t' rs. induction frames as [|fr frames IH]; intros k t t' rs Hrun.
  - cbn in Hrun. by injection Hrun as <- _.
  - cbn [shift_frames] in Hrun.
    apply M_bind_Ok_inv in Hrun as (_ & t1 & _ & Hrun).
    apply M_bind_Ok_inv in Hrun as (r & t2 & _ & Hrun).
    apply M_bind_Ok_inv in Hrun as (rs' & t3 & Hrs & Hrun).
    injection Hrun as <- _. cbn. f_equal. by eapply IH.
Qed.




End shift_rows.
Section default_reference.
Context {F C : Type} `{Scalar F} `{Complex F C} `{Libs F C}.


End default_reference.


Section slips.
Context {F C : Type} `{Scalar F} `{Complex F C} `{Libs F C}.

(** C5: with a bid area, [shift_pp] stops at the unbound name [images]
    before any peak is looked for, whatever the frame. *)
Theorem shift_pp_bid_area_raises_name_error (img : image F)
    (img_ref_peak_idx : nat * nat) (fsr : Q) (sz : nat * nat) :
  shift_pp img img_ref_peak_idx fsr (Some sz) = Raise (NameError "images").
Proof. reflexivity. Qed.

(** C2: two frames, a reference and [N=1].  The loop shifts frame 0 only and
    returns one shift vector; the pool shifts both frames and returns two. *)
Theorem serial_parallel_differ_when_N_is_given (x : F) :
  let o := λ mode, Options mode (Some [[x]]) 1 None (Some 1) f0 true 25 32 1 0 true
                            "average" true in
  let run := λ mode,
    lucky_imaging (Stack3 [[[x]]; [[x]]]) "peak pixel" (o mode) [] in
  (∃ img s, run "serial"%string = (Ok (img, [s]), [EvReference; EvShift 0; EvCombine])) ∧
  (∃ img s1 s2, run "parallel"%string
      = (Ok (img, [s1; s2]), [EvReference; EvShift 0; EvShift 1; EvCombine])) ∧
  fst (run "serial"%string) ≠ fst (run "parallel"%string).
Proof.
  cbv zeta.
  assert (Hs : ∃ img s, lucky_imaging (Stack3 [[[x]]; [[x]]]) "peak pixel"
     (Options "serial" (Some [[x]]) 1 None (Some 1) f0 true 25 32 1 0 true "average" true) []
     = (Ok (img, [s]), [EvReference; EvShift 0; EvCombine])).
  { vm_compute. eauto. }
  assert (Hp : ∃ img s1 s2, lucky_imaging (Stack3 [[[x]]; [[x]]]) "peak pixel"
     (Options "parallel" (Some [[x]]) 1 None (Some 1) f0 true 25 32 1 0 true "average" true) []
     = (Ok (img, [s1; s2]), [EvReference; EvShift 0; EvShift 1; EvCombine])).
  { vm_compute. eauto. }
  split; [exact Hs|]. split; [exact Hp|].
  destruct Hs as (img & s & ->). destruct Hp as (img' & s1 & s2 & ->).
  cbn. intros Heq. discriminate Heq.
Qed.

(** C4: on the peak-pixel path with [fsr < 1] the final timing message
    formats [N], by then the float [np.ceil] returned, with ["{:d}"]: with
    [timeit] set, as by default, no run returns. *)
Theorem peak_pixel_selection_never_returns_when_timed (images : images_arg F)
    (li_method : string) (o : options F) (t : trace) :
  lower li_method = "peak pixel"%string →
  fsr_below_1 o = true →
  timeit o = true →
  ∀ r t', lucky_imaging images li_method o t ≠ (Ok r, t').
Proof.
  intros Hm Hfsr Htime r t' Hrun. unfold lucky_imaging in Hrun.
  apply M_bind_Ok_inv in Hrun as ([[frames ref] n] & t1 & _ & Hrun).
  cbn beta iota zeta in Hrun. rewrite Hm in Hrun.
  apply M_bind_Ok_inv in Hrun as (d & t2 & Hsel & Hrun).
  destruct d as [f|r'].
  2:{ unfold select_method in Hsel. cbn in Hsel.
      apply M_bind_Ok_inv in Hsel as (_ & ? & _ & Hsel).
      apply M_bind_Ok_inv in Hsel as (? & ? & _ & Hsel).
      discriminate Hsel. }
  unfold shift_and_stack in Hrun. rewrite Hfsr, Htime in Hrun.
  apply M_bind_Ok_inv in Hrun as ([[shifted rows] peaks] & t3 & _ & Hrun).
  apply M_bind_Ok_inv in Hrun as ([stacked nf] & t4 & Hst & Hrun).
  cbn [andb String.eqb] in Hst.
  change (String.eqb "peak pixel" "peak pixel") with true in Hst. cbn [andb] in Hst.
  apply M_bind_Ok_inv in Hst as (vals & t5 & _ & Hst).
  apply M_bind_Ok_inv in Hst as (_ & t6 & _ & Hst).
  injection Hst as _ <- _.
  apply M_bind_Ok_inv in Hrun as (u & t7 & Hfmt & _).
  discriminate Hfmt.
Qed.
End slips.

Lemma peak_pixel_selection_never_returns_when_timed_witness :
  fsr_below_1 (defaults "serial" (Some unit_frame) (1 # 2) None "average" true) = true ∧
  fst (lucky_imaging (H0:=real_complex) (H1:=identity_libs)
         (Stack3 [unit_frame; unit_frame]) "Peak Pixel"
         (defaults "serial" (Some unit_frame) (1 # 2) None "average" true) [])
    = Raise ValueError ∧
  (∀ r t', lucky_imaging (H0:=real_complex) (H1:=identity_libs)
         (Stack3 [unit_frame; unit_frame]) "Peak Pixel"
         (defaults "serial" (Some unit_frame) (1 # 2) None "average" true) []
       ≠ (Ok r, t')).
Proof.
  split; [reflexivity|]. split; [vm_compute; reflexivity|].
  apply (peak_pixel_selection_never_returns_when_timed (H0:=real_complex)
           (H1:=identity_libs)); reflexivity.
Defined.

(** ** Exact arithmetic: the blind stack of copies *)















Lemma grid_at2_id {A} (d : A) (h w : nat) (im : list (list A)) :
  has_shape h w im → grid h w (at2 d im) = im.
Proof.
  intros [Hh Hw]. unfold grid.
  apply (nth_ext _ _ [] []); [by rewrite length_map, length_seq|].
  intros i Hi. rewrite length_map, length_seq in Hi.
  rewrite (nth_indep _ [] (map (at2 d im 0) (seq 0 w)))
    by (rewrite length_map, length_seq; lia).
  rewrite (map_nth (λ i, map (at2 d im i) (seq 0 w)) (seq 0 h) 0 i).
  rewrite seq_nth by lia. cbn.
  assert (Hrow : length (nth i im []) = w).
  { rewrite Forall_forall in Hw. apply Hw. apply list_elem_of_In, nth_In. lia. }
  apply (nth_ext _ _ d d); [by rewrite length_map, length_seq|].
  intros j Hj. rewrite length_map, length_seq in Hj.
  rewrite (nth_indep _ d (at2 d im i 0)) by (rewrite length_map, length_seq; lia).
  rewrite (map_nth (at2 d im i) (seq 0 w) 0 j).
  rewrite seq_nth by lia. done.
Qed.


Lemma shape2_of_has_shape {A} (h w : nat) (im : list (list A)) :
  has_shape (S h) w im → shape2 im = (S h, w).
Proof.
  intros [Hh Hw]. unfold shape2. destruct im as [|r im]; [discriminate Hh|].
  apply Forall_cons in Hw as [Hr _]. cbn in *. by rewrite Hh, Hr.
Qed.


Lemma blind_stack_run {F C : Type} `{Scalar F} `{Complex F C} `{Libs F C}
    (images : images_arg F) (m : string) (o : options F) frames ref n :
  lower m = "blind stack"%string →
  _li_error_check images (image_ref o) (N o) = Ok (frames, ref, n) →
  lucky_imaging images m o []
    = match combine (stacking_method o) ref frames (Z.of_nat n) with
      | Some s => (Ok (s, replicate n (f0, f0)), [EvCombine])
      | None => (Raise (NameError "image_stacked"), [EvCombine])
      end.
Proof.
  intros Hm Hc. unfold lucky_imaging. rewrite Hc.
  erewrite M_bind_Ok by reflexivity. cbn beta iota zeta. rewrite Hm.
  unfold select_method. cbn -[combine].
  by destruct (combine _ _ _ _).
Qed.




Section edge_ramp_shape.
Context {F : Type} `{Scalar F}.

Lemma centre_crop_shape (b h w : nat) (im : image F) :
  has_shape h w im → 2 * b < h → 2 * b < w →
  has_shape (h - 2 * b) (w - 2 * b) (centre_crop im (h - 2 * b, w - 2 * b)) ∧
  centre_crop im (h - 2 * b, w - 2 * b)
    = map (λ r, take (w - 2 * b) (drop b r)) (take (h - 2 * b) (drop b im)).
Proof.
  intros Him Hh Hw. destruct h as [|h]; [lia|].
  unfold centre_crop. rewrite (shape2_of_has_shape _ _ _ Him). cbn [fst snd].
  replace ((S h - (S h - 2 * b)) / 2) with b
    by (replace (S h - (S h - 2 * b)) with (b * 2) by lia; by rewrite Nat.div_mul).
  replace ((w - (w - 2 * b)) / 2) with b
    by (replace (w - (w - 2 * b)) with (b * 2) by lia; by rewrite Nat.div_mul).
  split; [|done]. destruct Him as [Hlen Hrows]. split.
  - rewrite length_map, length_take, length_drop. lia.
  - apply Forall_map. eapply Forall_impl; [apply Forall_take, Forall_drop, Hrows|].
    cbn. intros r Hr. rewrite length_take, length_drop. lia.
Qed.

Lemma last_length (w : nat) (im : image F) (r0 : list F) :
  Forall (λ r, length r = w) im → length r0 = w → length (List.last im r0) = w.
Proof.
  intros Him Hr0. induction Him as [|r im Hr Him IH]; [done|].
  destruct im as [|r' im]; [done|]. exact IH.
Qed.

Lemma pad_row_length (b w : nat) (r : list F) :
  length r = S w → length (pad_row b r) = S w + 2 * b.
Proof.
  intros Hr. destruct r as [|x r]; [discriminate Hr|].
  unfold pad_row, ramp_before, ramp_after.
  rewrite !length_app, !length_map, !length_seq. lia.
Qed.

Lemma pad_rows_shape (b h w : nat) (im : image F) :
  has_shape (S h) w im → has_shape (S h + 2 * b) w (pad_rows b im).
Proof.
  intros [Hlen Hrows]. destruct im as [|r0 im]; [discriminate Hlen|].
  pose proof Hrows as Hall. apply Forall_cons in Hrows as [Hr0 _].
  unfold pad_rows. split.
  - rewrite !length_app, !length_map, !length_seq. lia.
  - rewrite !Forall_app. split; [|split; [exact Hall|]].
    + apply Forall_map, Forall_forall. intros i _. cbn.
      unfold ramp_row_before. by rewrite length_map.
    + apply Forall_map, Forall_forall. intros i _. cbn beta.
      unfold ramp_row_after. rewrite length_map. by apply last_length.
Qed.

Lemma pad_linear_ramp_shape (b h w : nat) (im : image F) :
  has_shape (S h) (S w) im →
  has_shape (S h + 2 * b) (S w + 2 * b) (pad_linear_ramp b im).
Proof.
  intros Him. unfold pad_linear_ramp. destruct b as [|b].
  - by rewrite !Nat.add_0_r.
  - destruct (pad_rows_shape (S b) h (S w) im Him) as [Hlen Hrows]. split.
    + by rewrite length_map.
    + apply Forall_map. eapply Forall_impl; [exact Hrows|].
      cbn beta. intros r Hr. by apply pad_row_length.
Qed.

Lemma edge_ramp2_shape (b h w : nat) (im : image F) :
  has_shape h w im → 2 * b < h → 2 * b < w → has_shape h w (edge_ramp2 im b).
Proof.
  intros Him Hh Hw. unfold edge_ramp2.
  destruct h as [|h]; [lia|]. rewrite (shape2_of_has_shape _ _ _ Him).
  destruct (centre_crop_shape b (S h) w im Him Hh Hw) as [Hcrop _].
  destruct (S h - 2 * b) as [|h'] eqn:Hh'; [lia|].
  destruct (w - 2 * b) as [|w'] eqn:Hw'; [lia|].
  pose proof (pad_linear_ramp_shape b h' w' _ Hcrop) as Hpad.
  replace (S h' + 2 * b) with (S h) in Hpad by lia.
  replace (S w' + 2 * b) with w in Hpad by lia.
  exact Hpad.
Qed.


Lemma nth_map_in {A B} (f : A → B) (l : list A) (k : nat) (d : A) (d' : B) :
  k < length l → nth k (map f l) d' = f (nth k l d).
Proof.
  intros Hk. rewrite (nth_indep _ d' (f d)) by (by rewrite length_map).
  apply map_nth.
Qed.





End edge_ramp_shape.

Section alignment_err_spec.
Context {F : Type} `{Scalar F} `{Sqrt F}.














End alignment_err_spec.


Example alignment_err_example :
  errs_of 1%float shifts_applied shifts_recovered = [[3; 4; 5]]%float.
Proof. reflexivity. Qed.
(** ** Fourier amplitude selection *)

Lemma fftshift1_length {A} (l : list A) : length (fftshift1 l) = length l.
Proof.
  unfold fftshift1. rewrite length_app, length_drop, length_take.
  pose proof (Nat.Div0.div_le_upper_bound (length l) 2 (length l)). lia.
Qed.

Lemma fftshift2_shape {A} (h w : nat) (a : list (list A)) :
  has_shape h w a → has_shape h w (fftshift2 a).
Proof.
  intros [Hh Hw]. unfold fftshift2. split.
  - by rewrite fftshift1_length, length_map.
  - unfold fftshift1.
    assert (Hall : Forall (λ r, length r = w) (map fftshift1 a)).
    { apply Forall_map. eapply Forall_impl; [exact Hw|].
      cbn beta. intros r Hr. by rewrite fftshift1_length. }
    apply Forall_app. split; [by apply Forall_drop|by apply Forall_take].
Qed.

(** [fftshift] moves the zero frequency, element 0, to position [n / 2]. *)
Lemma fftshift1_dc {A} (d : A) (l : list A) :
  l ≠ [] → nth (length l / 2) (fftshift1 l) d = nth 0 l d.
Proof.
  intros Hl. unfold fftshift1.
  assert (Hn : 0 < length l) by (destruct l; [done|cbn; lia]).
  assert (Hhalf : length l / 2 < length l) by (apply Nat.div_lt; lia).
  rewrite app_nth2 by (rewrite length_drop; lia).
  rewrite length_drop.
  replace (length l / 2 - (length l - (length l - length l / 2))) with 0 by lia.
  destruct l as [|x l]; [done|].
  destruct (length (x :: l) - length (x :: l) / 2) as [|p] eqn:Hp; [lia|done].
Qed.


Section top_k.
Context {F C : Type} `{Scalar F} `{Libs F C} `{!ArgsortSpec F C}.

Lemma argsort_length (l : list F) : length (argsort l) = length l.
Proof. by rewrite (Permutation_length (argsort_perm l)), length_seq. Qed.

Lemma lastn_length {A} (k : nat) (l : list A) :
  k ≤ length l → length (lastn k l) = k.
Proof. intros Hk. unfold lastn. rewrite length_drop. lia. Qed.

End top_k.

Section fas_run.
Context {F C : Type} `{Scalar F} `{Complex F C} `{Libs F C}.
Context `{!ArgsortSpec F C} `{!LibsShape F C}.


Lemma flatten_nonempty {A} (h w : nat) (im : list (list A)) :
  has_shape (S h) (S w) im → flatten im ≠ [].
Proof.
  intros [Hh Hw]. destruct im as [|[|x r] im]; [discriminate Hh| |done].
  apply Forall_cons in Hw as [Hr _]. discriminate Hr.
Qed.



Lemma assign_row_ok (k : nat) (vals : list C) :
  length vals = k → assign_row k vals = Ok vals.
Proof. intros Hk. unfold assign_row. apply Nat.eqb_eq in Hk. by rewrite Hk. Qed.

Lemma fft_at_length (spectra : list (list (list C))) (idxs : list nat) (i j : nat) :
  length (fft_at spectra idxs i j) = length idxs.
Proof. unfold fft_at. by rewrite length_map. Qed.

Lemma at2_map_map {A B} (f : A → B) (d : A) (d' : B) (h w : nat)
    (a : list (list A)) (i j : nat) :
  has_shape h w a → i < h → j < w →
  at2 d' (map (map f) a) i j = f (at2 d a i j).
Proof.
  intros [Hh Hw] Hi Hj. unfold at2.
  rewrite (nth_map_in _ _ _ []) by lia.
  assert (Hrow : length (nth i a []) = w).
  { rewrite Forall_forall in Hw. apply Hw, list_elem_of_In, nth_In. lia. }
  by rewrite (nth_map_in _ _ _ d) by lia.
Qed.

Lemma py_max_ok (l : list F) : l ≠ [] → ∃ m, py_max l = Ok m.
Proof. intros Hl. destruct l; [done|]. cbn. eauto. Qed.

Lemma fas_stack_run (shifted : stack F) (ref : image F) (n h w : nat)
    (o : options F) (t : trace) :
  has_shape (S h) (S w) ref → Forall (has_shape (S h) (S w)) shifted →
  length shifted = n →
  2 * buff_fas o < S h → 2 * buff_fas o < S w →
  Qeq_bool (sigma_kernel o) 0 = true →
  N_frames_to_keep (fsr o) n ≤ n →
  let k := N_frames_to_keep (fsr o) n in
  let cutoff := cutoff_freq_px (cutoff_freq_frac o) (S h) (S w) in
  let spectra := map (λ fr, fftshift2 (fft2 (edge_ramp2 fr (buff_fas o)))) shifted in
  ∃ fft_sum t',
    fas_stack shifted ref n o t
      = (Ok (map (map cabs)
               (ifft2 (fftshift2 (map (map (λ z, cdiv_int z (Z.of_nat k))) fft_sum)))),
         t') ∧
    has_shape (S h) (S w) fft_sum ∧
    (∀ i j, i < S h → j < S w → uv_map (S h) (S w) cutoff i j = true →
      at2 czero fft_sum i j
        = cadd (zero_acc (use_vals_outside_cutoff_freq o) k)
               (csum (fft_at spectra
                        (lastn k (argsort (map (λ a, cabs (at2 czero a i j)) spectra)))
                        i j))) ∧
    (∀ i j, i < S h → j < S w → uv_map (S h) (S w) cutoff i j = false →
      at2 czero fft_sum i j
        = cadd (if use_vals_outside_cutoff_freq o then
                  cadd czero
                    (csum (fft_at spectra
                       (lastn k (argsort (map (λ fr, frame_peak (edge_ramp2 fr (buff_fas o)))
                                              shifted)))
                       i j))
                else czero)
               (csum (replicate k czero))).
Proof.
  intros Href Hshifted Hn Hbh Hbw Hsigma Hk k cutoff spectra.
  unfold fas_stack.
  erewrite M_bind_Ok by reflexivity.
  rewrite (shape2_of_has_shape _ _ _ Href).
  erewrite M_bind_Ok by reflexivity.
  fold k. fold cutoff.
  set (ramped := map (λ fr, edge_ramp2 fr (buff_fas o)) shifted).
  assert (Hramped : Forall (has_shape (S h) (S w)) ramped).
  { apply Forall_map. eapply Forall_impl; [exact Hshifted|].
    cbn beta. intros fr Hfr. by apply edge_ramp2_shape. }
  assert (Hspec_eq : map (λ fr, fftshift2 (fft2 fr)) ramped = spectra).
  { unfold ramped, spectra. by rewrite map_map. }
  rewrite Hspec_eq.
  assert (Hspectra : Forall (has_shape (S h) (S w)) spectra).
  { rewrite <- Hspec_eq. apply Forall_map. eapply Forall_impl; [exact Hramped|].
    cbn beta. intros fr Hfr. by apply fftshift2_shape, fft2_shape. }
  assert (Hlen_spectra : length spectra = n).
  { unfold spectra. by rewrite length_map. }
  (* outside the cutoff frequency *)
  set (outside := if use_vals_outside_cutoff_freq o then _ else _).
  assert (Hout : ∃ fs1 t1, outside (t ++ [EvRamp] ++ [EvTransform]) = (Ok fs1, t1) ∧
             (∀ i j, i < S h → j < S w → uv_map (S h) (S w) cutoff i j = true →
               at2 czero fs1 i j = zero_acc (use_vals_outside_cutoff_freq o) k) ∧
             (∀ i j, i < S h → j < S w → uv_map (S h) (S w) cutoff i j = false →
               at2 czero fs1 i j
                 = if use_vals_outside_cutoff_freq o then
                     cadd czero
                       (csum (fft_at spectra
                          (lastn k (argsort (map (λ fr, frame_peak (edge_ramp2 fr (buff_fas o)))
                                                 shifted)))
                          i j))
                   else czero)).
  { unfold outside, zero_acc. destruct (use_vals_outside_cutoff_freq o).
    - set (peak := @frame_peak F _).
      assert (Hpeaks : mapM (λ fr, py_max (flatten fr)) ramped = Ok (map peak ramped)).
      { apply mapM_result_Ok. intros fr Hfr. unfold peak, frame_peak.
        rewrite Forall_forall in Hramped.
        destruct (py_max_ok (flatten fr)) as [m ->]; [|done].
        eapply flatten_nonempty. by apply Hramped. }
      erewrite M_bind_Ok by (unfold lift; rewrite Hpeaks; reflexivity).
      set (idxs := lastn k (argsort (map peak ramped))).
      assert (Hidxs : length idxs = k).
      { unfold idxs. apply lastn_length. rewrite argsort_length, length_map.
        unfold ramped. rewrite length_map. lia. }
      erewrite M_bind_Ok.
      2:{ unfold lift. erewrite (gridM_Ok (S h) (S w) _
            (λ i j, if uv_map (S h) (S w) cutoff i j then replicate k czero
                    else fft_at spectra idxs i j)); [reflexivity|].
          intros i j Hi Hj. destruct (uv_map (S h) (S w) cutoff i j); [done|].
          apply assign_row_ok. by rewrite fft_at_length. }
      eexists _, _. split; [reflexivity|]. split.
      + intros i j Hi Hj Huv. rewrite !at2_grid by lia. by rewrite Huv.
      + intros i j Hi Hj Huv. rewrite !at2_grid by lia. rewrite Huv.
        unfold idxs, ramped, peak. by rewrite map_map.
    - eexists _, _. split; [reflexivity|].
      split; intros i j Hi Hj _; by rewrite at2_grid by lia. }
  destruct Hout as (fs1 & t1 & Hout & Hfs1 & Hfs0).
  rewrite <- !app_assoc. erewrite M_bind_Ok by exact Hout.
  (* within the cutoff frequency *)
  apply Qeq_bool_iff in Hsigma. apply Qeq_bool_iff in Hsigma.
  rewrite Hsigma. cbn [negb].
  set (vals := λ i j : nat, map (λ a, at2 f0 a i j) (map (map (map cabs)) spectra)).
  assert (Hvals : ∀ i j, i < S h → j < S w →
            vals i j = map (λ a, cabs (at2 czero a i j)) spectra).
  { intros i j Hi Hj. unfold vals. rewrite map_map.
    apply map_ext_in. intros a Ha. rewrite Forall_forall in Hspectra.
    apply (at2_map_map cabs czero f0 (S h) (S w)); [|done..].
    by apply Hspectra, list_elem_of_In. }
  erewrite M_bind_Ok.
  2:{ unfold lift. erewrite (gridM_Ok (S h) (S w) _
        (λ i j, if uv_map (S h) (S w) cutoff i j
                then fft_at spectra (lastn k (argsort (vals i j))) i j
                else replicate k czero)); [reflexivity|].
      intros i j Hi Hj. destruct (uv_map (S h) (S w) cutoff i j); [|done].
      apply assign_row_ok. rewrite fft_at_length. apply lastn_length.
      rewrite argsort_length. unfold vals. rewrite !length_map. lia. }
  erewrite M_bind_Ok by reflexivity.
  eexists _, _. split; [reflexivity|]. split; [apply grid_has_shape|]. split.
  - intros i j Hi Hj Huv. rewrite !at2_grid by lia.
    rewrite Huv, (Hfs1 i j Hi Hj Huv), (Hvals i j Hi Hj). reflexivity.
  - intros i j Hi Hj Huv. rewrite !at2_grid by lia.
    rewrite Huv, (Hfs0 i j Hi Hj Huv). reflexivity.
Qed.

Lemma Qfloor_lt_of_frac (q : Q) :
  (0 < q - inject_Z (Qfloor q))%Q → (inject_Z (Qfloor q) < q)%Q.
Proof. intros Hpos. lra. Qed.

Lemma np_round_le (q : Q) (z : Z) : (q <= inject_Z z)%Q → (np_round q <= z)%Z.
Proof.
  intros Hq. unfold np_round.
  pose proof (Qfloor_le q) as Hfl.
  assert (Hle : (Qfloor q <= z)%Z).
  { rewrite Zle_Qle. eapply Qle_trans; eassumption. }
  assert (Hstrict : (0 < q - inject_Z (Qfloor q))%Q → (Qfloor q < z)%Z).
  { intros Hpos. rewrite Zlt_Qlt.
    eapply Qlt_le_trans; [by apply Qfloor_lt_of_frac|exact Hq]. }
  destruct (Qcompare_spec (q - inject_Z (Qfloor q)) (1 # 2)) as [Heq|Hlt|Hgt];
    [|done|].
  - assert (Hz : (Qfloor q < z)%Z) by (apply Hstrict; lra).
    destruct (Z.even (Qfloor q)); lia.
  - assert (Hz : (Qfloor q < z)%Z).
    { apply Hstrict. lra. }
    lia.
Qed.

Lemma N_frames_to_keep_le (fsr : Q) (n : nat) :
  (fsr <= 1)%Q → 1 ≤ n → N_frames_to_keep fsr n ≤ n.
Proof.
  intros Hfsr Hn. unfold N_frames_to_keep.
  assert (Hr : (np_round (fsr * inject_Z (Z.of_nat n)) <= Z.of_nat n)%Z).
  { apply np_round_le.
    assert (Hn0 : (0 <= inject_Z (Z.of_nat n))%Q).
    { change 0%Q with (inject_Z 0). rewrite <- Zle_Qle. lia. }
    nra. }
  lia.
Qed.




End fas_run.
(** ** The interpretation used for examples meets the library contracts *)

#[global] Instance Qc_order : ScalarOrder Qc.
Proof.
  assert (Hlt : ∀ x y : Qc, Qc_ltb x y = true ↔ (x < y)%Qc).
  { intros x y. unfold Qc_ltb. rewrite Qclt_alt. by destruct (x ?= y)%Qc. }
  assert (Hge : ∀ x y : Qc, Qc_ltb x y = false ↔ (y <= x)%Qc).
  { intros x y. rewrite <- not_true_iff_false, Hlt. split.
    - apply Qcnot_lt_le.
    - apply Qcle_not_lt. }
  split; cbn [fltb Qc_scalar].
  - intros x. apply Hge, Qcle_refl.
  - intros x y z. rewrite !Hlt. apply Qclt_trans.
  - intros x y z. rewrite !Hge. intros Hyx Hzy. by eapply Qcle_trans.
Qed.

Section sort_indices_spec.
Context {F : Type} `{ScalarOrder F}.

#[local] Instance idx_le_total (l : list F) : Total (idx_le l).
Proof.
  intros a b. unfold idx_le, fle.
  destruct (fltb (nth b l f0) (nth a l f0)) eqn:Hba; [|by left].
  right. destruct (fltb (nth a l f0) (nth b l f0)) eqn:Hab; [|done].
  pose proof (fltb_trans _ _ _ Hab Hba) as Hcyc. by rewrite fltb_irrefl in Hcyc.
Qed.

#[local] Instance idx_le_trans (l : list F) : Transitive (idx_le l).
Proof.
  intros a b c. unfold idx_le, fle. intros Hab Hbc. by eapply fltb_negtrans.
Qed.

Lemma sort_indices_perm (l : list F) : sort_indices l ≡ₚ seq 0 (length l).
Proof. apply merge_sort_Permutation. Qed.

Lemma StronglySorted_lookup {A} (R : relation A) (s : list A) (p q : nat) (x y : A) :
  StronglySorted R s → p < q → s !! p = Some x → s !! q = Some y → R x y.
Proof.
  intros Hs. revert p q. induction Hs as [|a s Hs IH Ha]; intros p q Hpq Hp Hq.
  - by rewrite lookup_nil in Hp.
  - destruct q as [|q]; [lia|]. cbn in Hq. destruct p as [|p].
    + cbn in Hp. injection Hp as <-. rewrite Forall_forall in Ha.
      by eapply Ha, list_elem_of_lookup_2.
    + cbn in Hp. eapply (IH p q); [lia|done..].
Qed.

Lemma sort_indices_sorted (l : list F) (d : F) (p q : nat) :
  p ≤ q → q < length l →
  fltb (nth (nth q (sort_indices l) 0) l d) (nth (nth p (sort_indices l) 0) l d) = false.
Proof.
  intros Hpq Hq.
  pose proof (sort_indices_perm l) as Hperm.
  assert (Hlen : length (sort_indices l) = length l)
    by (by rewrite (Permutation_length Hperm), length_seq).
  destruct (lookup_lt_is_Some_2 (sort_indices l) p) as [a Ha]; [lia|].
  destruct (lookup_lt_is_Some_2 (sort_indices l) q) as [b Hb]; [lia|].
  rewrite (nth_lookup_Some _ _ 0 _ Ha), (nth_lookup_Some _ _ 0 _ Hb).
  assert (Hrange : ∀ i c, sort_indices l !! i = Some c → c < length l).
  { intros i c Hc. apply list_elem_of_lookup_2 in Hc. rewrite Hperm in Hc.
    apply elem_of_seq in Hc. lia. }
  rewrite (nth_indep l d f0 (Hrange _ _ Ha)), (nth_indep l d f0 (Hrange _ _ Hb)).
  destruct (decide (p = q)) as [->|Hne].
  - rewrite Ha in Hb. injection Hb as ->. apply fltb_irrefl.
  - apply (StronglySorted_lookup (idx_le l) (sort_indices l) p q a b);
      [apply StronglySorted_merge_sort; apply _|lia|done..].
Qed.

#[global] Instance identity_libs_argsort : ArgsortSpec F F (H0 := identity_libs).
Proof. split; [apply sort_indices_perm|apply sort_indices_sorted]. Qed.
End sort_indices_spec.

#[global] Instance identity_libs_shape {F : Type} `{Scalar F} :
  LibsShape F F (H := identity_libs).
Proof. by split. Qed.

(** ** The peak pixel *)

Section peak_pixel.
Context {F C : Type} `{ScalarOrder F} `{Libs F C}.



End peak_pixel.


(** ** Peak-pixel selection *)

(** ** Peak-pixel selection *)



Section peak_selection.
Context {F C : Type} `{Scalar F} `{Complex F C} `{Libs F C} `{!ArgsortSpec F C}.




End peak_selection.

(** ** The input check *)

Lemma first_element_ok {A} (l : list A) : l ≠ [] → first_element l = Ok tt.
Proof. by destruct l. Qed.

Lemma truthy_default (n : option nat) : truthy n = (0 <? default 0 n).
Proof. by destruct n as [[|n]|]. Qed.

(** With a reference image, [_li_error_check] accepts a 3-D stack exactly
    when [N], if given, is at most the number of frames and the reference
    has the shape of the first frame.  It then returns the stack and the
    reference as given, with [N] or, when [N] is [None] or 0, the number of
    frames.  Every rejection is a [UserWarning]. *)
Theorem li_error_check_with_reference {F : Type} (st : stack F) (r : image F)
    (n : option nat) :
  flatten (flatten st) ≠ [] → flatten r ≠ [] →
  let accepted :=
    default 0 n ≤ length st ∧ shape2 r = shape2 (default [] (head st)) in
  (accepted →
     _li_error_check (Stack3 st) (Some r) n
       = Ok (st, r, if truthy n then default 0 n else length st)) ∧
  (¬ accepted → _li_error_check (Stack3 st) (Some r) n = Raise UserWarning).
Proof.
  intros Hst Hr accepted. unfold _li_error_check.
  rewrite (first_element_ok _ Hst), (first_element_ok _ Hr).
  cbn [mbind result_bind]. 
  destruct st as [|fr rest]; [done|]. cbn [head default].
  split.
  - intros [Hn Hs].
    replace (length (fr :: rest) <? default 0 n) with false
      by (symmetry; apply Nat.ltb_ge; exact Hn).
    rewrite andb_false_r. cbn -[shape2 bool_decide].
    by rewrite bool_decide_eq_true_2.
  - intros Hno.
    destruct (truthy n && (length (fr :: rest) <? default 0 n)) eqn:Hb; [done|].
    cbn -[shape2 bool_decide].
    destruct (decide (shape2 r = shape2 fr)) as [Hs|Hs].
    + exfalso. apply Hno. split; [|done].
      apply andb_false_iff in Hb as [Hb|Hb].
      * rewrite truthy_default in Hb. apply Nat.ltb_ge in Hb. lia.
      * by apply Nat.ltb_ge in Hb.
    + by rewrite bool_decide_eq_false_2.
Qed.

Lemma li_error_check_with_reference_witness :
  _li_error_check (Stack3 [dark_frame; dark_frame]) (Some dark_frame) (Some 1)
    = Ok ([dark_frame; dark_frame], dark_frame, 1) ∧
  _li_error_check (Stack3 [dark_frame; dark_frame]) (Some unit_frame) (Some 1)
    = Raise UserWarning ∧
  _li_error_check (Stack3 [dark_frame; dark_frame]) (Some dark_frame) (Some 3)
    = Raise UserWarning.
Proof.
  split; [|split].
  - apply (li_error_check_with_reference [dark_frame; dark_frame] dark_frame (Some 1));
      [done|done|]. split; [cbn; lia|reflexivity].
  - apply (li_error_check_with_reference [dark_frame; dark_frame] unit_frame (Some 1));
      [done|done|]. intros [_ Hs]. discriminate Hs.
  - apply (li_error_check_with_reference [dark_frame; dark_frame] dark_frame (Some 3));
      [done|done|]. intros [Hn _]. cbn in Hn. lia.
Defined.

(** ** Runs that cannot return *)

Section run_errors.
Context {F C : Type} `{Scalar F} `{Complex F C} `{Libs F C}.

Lemma select_method_returned_blind (m : string) (images : stack F)
    (image_ref : image F) (n : nat) (o : options F) (t t' : trace) r :
  select_method m images image_ref n o t = (Ok (Returned r), t') →
  m = "blind stack"%string.
Proof.
  unfold select_method. intros Hrun.
  destruct (String.eqb m "blind stack") eqn:Hb; [by apply String.eqb_eq in Hb|].
  exfalso.
  repeat match type of Hrun with
  | (if ?b then _ else _) _ = _ => destruct b
  end;
  repeat match type of Hrun with
  | (_ ≫= _) _ = _ => apply M_bind_Ok_inv in Hrun as (? & ? & _ & Hrun)
  end;
  cbv [mret M_ret raise lift] in Hrun; discriminate Hrun.
Qed.

(** The method dispatch shifts no frame. *)
Lemma select_method_trace (m : string) (images : stack F)
    (image_ref : image F) (n : nat) (o : options F) (t t' : trace) r :
  select_method m images image_ref n o t = (r, t') →
  ∃ evs, t' = t ++ evs ∧ ∀ k, EvShift k ∉ evs.
Proof.
  unfold select_method. intros Hrun.
  assert (Hnil : ∀ k, EvShift k ∉ @nil event) by (intros k; apply not_elem_of_nil).
  assert (Hone : ∀ e, (∀ k, e ≠ EvShift k) → ∀ k, EvShift k ∉ [e]).
  { intros e He k Hin. apply list_elem_of_singleton in Hin. by eapply He. }
  repeat match type of Hrun with
  | (if ?b then _ else _) _ = _ => destruct b
  end;
  cbv [mbind M_bind mret M_ret raise lift tick] in Hrun;
  repeat match type of Hrun with
  | context [match ?x with _ => _ end] => destruct x
  end;
  injection Hrun as _ <-;
  first [ by exists []; rewrite app_nil_r
        | by exists [EvReference]; split; [|apply Hone]
        | by exists [EvCombine]; split; [|apply Hone] ].
Qed.

(** Without a reference image the check accepts [N] equal to the number of
    frames of the stack, although the first frame becomes the reference and
    one frame fewer remains.  In serial mode the loop then indexes past the
    last frame: no method that shifts frames returns. *)
Theorem serial_run_with_N_of_whole_stack_never_returns (fr : image F)
    (rest : stack F) (li_method : string) (o : options F) :
  image_ref o = None → N o = Some (length (fr :: rest)) →
  mode o = "serial"%string →
  flatten (flatten (fr :: rest)) ≠ [] →
  lower li_method ≠ "blind stack"%string →
  _li_error_check (Stack3 (fr :: rest)) (image_ref o) (N o)
    = Ok (rest, fr, length (fr :: rest)) ∧
  ∀ t r t', lucky_imaging (Stack3 (fr :: rest)) li_method o t ≠ (Ok r, t').
Proof.
  intros Href HN Hmode Hne Hm.
  assert (Hc : _li_error_check (Stack3 (fr :: rest)) (image_ref o) (N o)
               = Ok (rest, fr, length (fr :: rest))).
  { rewrite Href, HN. unfold _li_error_check.
    destruct (flatten (flatten (fr :: rest))) as [|x l] eqn:Hfl; [done|].
    cbn [first_element mbind result_bind truthy length default].
    rewrite Nat.ltb_irrefl. reflexivity. }
  split; [exact Hc|].
  intros t r t' Hrun. unfold lucky_imaging in Hrun. rewrite Hc in Hrun.
  erewrite M_bind_Ok in Hrun by reflexivity. cbn beta iota zeta in Hrun.
  apply M_bind_Ok_inv in Hrun as (d & t1 & Hsel & Hrun).
  destruct d as [f|r'].
  2:{ by apply select_method_returned_blind in Hsel. }
  unfold shift_and_stack in Hrun.
  apply M_bind_Ok_inv in Hrun as ([[shifted rows] peaks] & t2 & Hal & _).
  unfold align in Hal. rewrite Hmode in Hal.
  cbn [String.eqb Ascii.eqb Bool.eqb] in Hal.
  apply M_bind_Ok_inv in Hal as (rs & t3 & _ & Hal).
  replace (length rest <? length (fr :: rest)) with true in Hal
    by (symmetry; apply Nat.ltb_lt; cbn; lia).
  discriminate Hal.
Qed.

(** With a [mode] that is neither ['serial'] nor ['parallel'] no frame is
    shifted and no method that shifts frames returns; the exception is the
    [UserWarning] of the mode test whenever the input check and the
    analysis of the reference image succeed. *)
Theorem invalid_mode_shifts_no_frame (images : images_arg F)
    (li_method : string) (o : options F) :
  mode o ≠ "parallel"%string → mode o ≠ "serial"%string →
  lower li_method ≠ "blind stack"%string →
  ∃ e t', lucky_imaging images li_method o [] = (Raise e, t') ∧
    (∀ k, EvShift k ∉ t') ∧
    (∀ frames ref n f t1,
       _li_error_check images (image_ref o) (N o) = Ok (frames, ref, n) →
       select_method (lower li_method) frames ref n o [] = (Ok (ShiftFun f), t1) →
       e = UserWarning).
Proof.
  intros Hp Hs Hm. unfold lucky_imaging.
  destruct (_li_error_check images (image_ref o) (N o)) as [[[frames ref] n]|e] eqn:Hc.
  2:{ exists e, []. split; [done|]. split; [intros k; apply not_elem_of_nil|].
      intros ????? Hx. discriminate Hx. }
  erewrite M_bind_Ok by reflexivity. cbn beta iota zeta.
  destruct (select_method (lower li_method) frames ref n o []) as [[d|e] t1] eqn:Hsel.
  2:{ exists e, t1. erewrite M_bind_Raise by exact Hsel. split; [done|].
      destruct (select_method_trace _ _ _ _ _ _ _ _ Hsel) as (evs & Ht1 & Hevs).
      split; [by rewrite Ht1|].
      intros ????? Hx Hy. injection Hx as <- <- <-. rewrite Hsel in Hy.
      discriminate Hy. }
  destruct d as [f|r].
  2:{ by apply select_method_returned_blind in Hsel. }
  erewrite M_bind_Ok by exact Hsel.
  exists UserWarning, t1.
  apply select_method_trace in Hsel as (evs & -> & Hevs).
  split; [|split; [exact Hevs|done]].
  unfold shift_and_stack. erewrite M_bind_Raise; [done|].
  unfold align.
  replace (String.eqb (mode o) "parallel") with false
    by (symmetry; by apply String.eqb_neq).
  replace (String.eqb (mode o) "serial") with false
    by (symmetry; by apply String.eqb_neq).
  reflexivity.
Qed.

(** With a [stacking_method] other than ['average'] and ['median combine']
    no method but the Fourier amplitude selection returns: the stacked
    image is never bound.  For the blind stack the exception is the
    [NameError] ([UnboundLocalError]) of [image_stacked] whenever the input
    check passes. *)
Theorem unknown_stacking_method_never_returns (images : images_arg F)
    (li_method : string) (o : options F) :
  stacking_method o ≠ "median combine"%string →
  stacking_method o ≠ "average"%string →
  is_fas (lower li_method) = false →
  (∀ t r t', lucky_imaging images li_method o t ≠ (Ok r, t')) ∧
  (lower li_method = "blind stack"%string →
   ∀ x, _li_error_check images (image_ref o) (N o) = Ok x →
        lucky_imaging images li_method o []
          = (Raise (NameError "image_stacked"), [EvCombine])).
Proof.
  intros Hmed Havg Hfas.
  assert (Hcomb : ∀ ref frames c, combine (stacking_method o) ref frames c = None).
  { intros ref frames c. unfold combine.
    replace (String.eqb (stacking_method o) "median combine") with false
      by (symmetry; by apply String.eqb_neq).
    replace (String.eqb (stacking_method o) "average") with false
      by (symmetry; by apply String.eqb_neq).
    reflexivity. }
  split.
  - intros t r t' Hrun. unfold lucky_imaging in Hrun.
    apply M_bind_Ok_inv in Hrun as ([[frames ref] n] & t0 & _ & Hrun).
    cbn beta iota zeta in Hrun.
    apply M_bind_Ok_inv in Hrun as (d & t1 & Hsel & Hrun).
    destruct d as [f|r'].
    + unfold shift_and_stack in Hrun. rewrite Hfas in Hrun.
      apply M_bind_Ok_inv in Hrun as ([[shifted rows] peaks] & t2 & _ & Hrun).
      apply M_bind_Ok_inv in Hrun as ([stacked nf] & t3 & Hst & Hrun).
      apply M_bind_Ok_inv in Hrun as (_ & t4 & _ & Hrun).
      destruct stacked as [s|]; [|discriminate Hrun].
      destruct (String.eqb (lower li_method) "peak pixel" && fsr_below_1 o).
      * apply M_bind_Ok_inv in Hst as (vals & t5 & _ & Hst).
        apply M_bind_Ok_inv in Hst as (_ & t6 & _ & Hst).
        rewrite Hcomb in Hst. discriminate Hst.
      * apply M_bind_Ok_inv in Hst as (_ & t6 & _ & Hst).
        rewrite Hcomb in Hst. discriminate Hst.
    + pose proof (select_method_returned_blind _ _ _ _ _ _ _ _ Hsel) as Hb.
      rewrite Hb in Hsel. unfold select_method in Hsel.
      cbn [String.eqb Ascii.eqb Bool.eqb] in Hsel.
      apply M_bind_Ok_inv in Hsel as (_ & t2 & _ & Hsel).
      rewrite Hcomb in Hsel. discriminate Hsel.
  - intros Hb [[frames ref] n] Hc.
    rewrite (blind_stack_run images li_method o frames ref n Hb Hc).
    by rewrite Hcomb.
Qed.
End run_errors.

Lemma serial_run_with_N_of_whole_stack_never_returns_witness :
  _li_error_check (Stack3 [unit_frame; unit_frame; unit_frame]) None (Some 3)
    = Ok ([unit_frame; unit_frame], unit_frame, 3) ∧
  ∀ t r t', lucky_imaging (H0:=real_complex) (H1:=identity_libs)
              (Stack3 [unit_frame; unit_frame; unit_frame]) "centroid"
              (defaults "serial" None 1 (Some 3) "average" false) t ≠ (Ok r, t').
Proof.
  apply (serial_run_with_N_of_whole_stack_never_returns (H0:=real_complex)
           (H1:=identity_libs) unit_frame [unit_frame; unit_frame] "centroid"
           (defaults "serial" None 1 (Some 3) "average" false));
    [reflexivity|reflexivity|reflexivity|done|done].
Defined.

Lemma invalid_mode_shifts_no_frame_witness :
  ∃ e t', lucky_imaging (H0:=real_complex) (H1:=identity_libs)
            (Stack3 [unit_frame; unit_frame]) "Peak Pixel"
            (defaults "threaded" None 1 None "average" false) [] = (Raise e, t') ∧
    (∀ k, EvShift k ∉ t') ∧
    (∀ frames ref n f t1,
       _li_error_check (Stack3 [unit_frame; unit_frame]) None None
         = Ok (frames, ref, n) →
       select_method (H1:=identity_libs) (lower "Peak Pixel") frames ref n
         (defaults "threaded" None 1 None "average" false) []
         = (Ok (ShiftFun f), t1) →
       e = UserWarning).
Proof.
  apply (invalid_mode_shifts_no_frame (H0:=real_complex) (H1:=identity_libs)
           (Stack3 [unit_frame; unit_frame]) "Peak Pixel"
           (defaults "threaded" None 1 None "average" false)); done.
Defined.

Lemma unknown_stacking_method_never_returns_witness :
  (∀ t r t', lucky_imaging (H0:=real_complex) (H1:=identity_libs)
               (Stack3 [unit_frame; unit_frame]) "Blind Stack"
               (defaults "serial" None 1 None "mean" false) t ≠ (Ok r, t')) ∧
  ("blind stack" = "blind stack" →
   ∀ x, _li_error_check (Stack3 [unit_frame; unit_frame]) None None = Ok x →
        lucky_imaging (H0:=real_complex) (H1:=identity_libs)
          (Stack3 [unit_frame; unit_frame]) "Blind Stack"
          (defaults "serial" None 1 None "mean" false) []
          = (Raise (NameError "image_stacked"), [EvCombine])).
Proof.
  apply (unknown_stacking_method_never_returns (H0:=real_complex)
           (H1:=identity_libs) (Stack3 [unit_frame; unit_frame]) "Blind Stack"
           (defaults "serial" None 1 None "mean" false)); done.
Defined.

(** ** Serial and parallel runs *)

Section modes.
Context {F C : Type} `{Scalar F} `{Complex F C} `{Libs F C}.

Lemma select_method_with_mode (md m : string) (frames : stack F) (ref : image F)
    (n : nat) (o : options F) :
  select_method m frames ref n (with_mode md o) = select_method m frames ref n o.
Proof. by destruct o. Qed.

Lemma fas_stack_with_mode (md : string) (shifted : stack F) (ref : image F)
    (n : nat) (o : options F) :
  fas_stack shifted ref n (with_mode md o) = fas_stack shifted ref n o.
Proof. by destruct o. Qed.

(** The second half of [shift_and_stack], lisim.py 402-502, does not read
    [mode]. *)
Lemma align_parallel (f : image F → result (image F * (F * F) * option F))
    (images : stack F) (n : nat) (pp : bool) (o : options F) (t : trace) :
  align f images n pp (with_mode "parallel" o) t
    = (results ← shift_frames f 0 images;
       match results with
       | [] => raise IndexError
       | _ :: _ =>
           let '(images_shifted, rel_shift_idxs, peaks) := unzip_results results in
           mret (images_shifted, rel_shift_idxs,
                 if pp && fsr_below_1 o then Some peaks else None)
       end) t.
Proof. by destruct o. Qed.

Lemma align_serial (f : image F → result (image F * (F * F) * option F))
    (images : stack F) (n : nat) (pp : bool) (o : options F) (t : trace) :
  align f images n pp (with_mode "serial" o) t
    = (results ← shift_frames f 0 (take n images);
       if length images <? n then raise IndexError
       else
         let '(images_shifted, rel_shift_idxs, peaks) := unzip_results results in
         mret (images_shifted, rel_shift_idxs,
               if pp && (0 <? n) then Some peaks else None)) t.
Proof. by destruct o. Qed.

Lemma shift_and_stack_modes
    (f : image F → result (image F * (F * F) * option F))
    (m : string) (frames : stack F) (ref : image F) (o : options F) (t : trace) :
  frames ≠ [] →
  shift_and_stack f m frames ref (length frames) (with_mode "parallel" o) t
    = shift_and_stack f m frames ref (length frames) (with_mode "serial" o) t.
Proof.
  intros Hne.
  assert (Hpos : (0 <? length frames) = true)
    by (apply Nat.ltb_lt; destruct frames; [done|cbn; lia]).
  unfold shift_and_stack.
  destruct (shift_frames f 0 frames t) as [[rs|e] t1] eqn:Hrs.
  2:{ erewrite !M_bind_Raise; [reflexivity| |].
      - rewrite align_serial, firstn_all. by erewrite M_bind_Raise.
      - rewrite align_parallel. by erewrite M_bind_Raise. }
  pose proof (shift_frames_length _ _ _ _ _ _ Hrs) as Hlen.
  destruct rs as [|r rs]; [by destruct frames|].
  erewrite (M_bind_Ok (align _ _ _ _ (with_mode "parallel" o))).
  2:{ rewrite align_parallel. erewrite M_bind_Ok by exact Hrs. reflexivity. }
  erewrite (M_bind_Ok (align _ _ _ _ (with_mode "serial" o))).
  2:{ rewrite align_serial, firstn_all. erewrite M_bind_Ok by exact Hrs.
      rewrite Nat.ltb_irrefl, Hpos. reflexivity. }
  rewrite !fas_stack_with_mode.
  replace (fsr_below_1 (with_mode "parallel" o)) with (fsr_below_1 o) by by destruct o.
  replace (fsr_below_1 (with_mode "serial" o)) with (fsr_below_1 o) by by destruct o.
  replace (fsr (with_mode "parallel" o)) with (fsr o) by by destruct o.
  replace (fsr (with_mode "serial" o)) with (fsr o) by by destruct o.
  replace (stacking_method (with_mode "parallel" o)) with (stacking_method o)
    by by destruct o.
  replace (stacking_method (with_mode "serial" o)) with (stacking_method o)
    by by destruct o.
  replace (timeit (with_mode "parallel" o)) with (timeit o) by by destruct o.
  replace (timeit (with_mode "serial" o)) with (timeit o) by by destruct o.
  unfold unzip_results. cbn beta iota zeta. rewrite andb_true_r.
  destruct (String.eqb m "peak pixel"), (fsr_below_1 o); reflexivity.
Qed.

(** When [N] is the number of frames to shift (as it is when [N] is not
    given) and there is at least one, a parallel and a serial run of the
    same call end alike: the same stacked image and shift array, or the
    same exception. *)
Theorem serial_and_parallel_agree_on_whole_stack (images : images_arg F)
    (li_method : string) (o : options F) (frames : stack F) (ref : image F) :
  _li_error_check images (image_ref o) (N o) = Ok (frames, ref, length frames) →
  frames ≠ [] →
  fst (lucky_imaging images li_method (with_mode "parallel" o) [])
    = fst (lucky_imaging images li_method (with_mode "serial" o) []).
Proof.
  intros Hc Hne. f_equal. unfold lucky_imaging.
  replace (image_ref (with_mode "parallel" o)) with (image_ref o) by by destruct o.
  replace (image_ref (with_mode "serial" o)) with (image_ref o) by by destruct o.
  replace (N (with_mode "parallel" o)) with (N o) by by destruct o.
  replace (N (with_mode "serial" o)) with (N o) by by destruct o.
  rewrite Hc. erewrite !M_bind_Ok by reflexivity. cbn beta iota zeta.
  unfold mbind, M_bind. rewrite !select_method_with_mode.
  destruct (select_method (lower li_method) frames ref (length frames) o [])
    as [[[f|r]|e] t1]; [|reflexivity..].
  by apply shift_and_stack_modes.
Qed.
End modes.

Lemma serial_and_parallel_agree_on_whole_stack_witness :
  let frames := [square_Qc 1 2 3 4; square_Qc 4 3 2 9; square_Qc 0 5 0 0] in
  let o := defaults "serial" (Some (square_Qc 1 2 3 5)) 1 None "average" true in
  fst (lucky_imaging (H0:=real_complex) (H1:=identity_libs)
         (Stack3 frames) "peak pixel" (with_mode "parallel" o) [])
    = fst (lucky_imaging (H0:=real_complex) (H1:=identity_libs)
             (Stack3 frames) "peak pixel" (with_mode "serial" o) []).
Proof.
  intros frames o.
  apply (serial_and_parallel_agree_on_whole_stack (H0:=real_complex)
           (H1:=identity_libs) (Stack3 frames) "peak pixel" o frames
           (square_Qc 1 2 3 5)); [vm_compute; reflexivity|done].
Defined.

(** ** A stack of a single frame *)

Section single_frame.
Context {F C : Type} `{Scalar F} `{Complex F C} `{Libs F C}.

Lemma select_method_shifting (m : string) (ref : image F) (frames : stack F)
    (n : nat) (o : options F) :
  m ∈ ["cross-correlation"; "gaussian fit"; "peak pixel"; "centroid"]%string →
  flatten ref ≠ [] → bid_area o = None →
  ∃ f t1, select_method m frames ref n o [] = (Ok (ShiftFun f), t1).
Proof.
  intros Hm Hne Hbid.
  destruct (flatten ref) as [|x l] eqn:Hfl; [done|]. unfold select_method.
  repeat (apply elem_of_cons in Hm as [-> | Hm]);
    [..|by apply elem_of_nil in Hm];
    cbn [String.eqb Ascii.eqb Bool.eqb].
  - eauto.
  - erewrite M_bind_Ok by reflexivity. eauto.
  - erewrite M_bind_Ok by reflexivity. rewrite Hbid, Hfl.
    erewrite M_bind_Ok by reflexivity. eauto.
  - erewrite M_bind_Ok by reflexivity. rewrite Hfl.
    erewrite M_bind_Ok by reflexivity. eauto.
Qed.

(** A stack of one frame without reference image passes the input check:
    the frame becomes the reference, no frame is left and [N] is 0.  The
    shifting methods (peak pixel with [fsr ≥ 1]) then differ by mode: the
    parallel run raises an [IndexError] on the empty result list, the
    serial run returns [(reference + 0) / 1] and an empty shift array. *)
Theorem single_frame_stack_by_mode (fr : image F) (li_method : string)
    (o : options F) (h w : nat) :
  lower li_method ∈ ["cross-correlation"; "gaussian fit"; "peak pixel"; "centroid"]%string →
  image_ref o = None → truthy (N o) = false → bid_area o = None →
  fsr_below_1 o = false → stacking_method o = "average"%string →
  flatten fr ≠ [] → shape2 fr = (h, w) →
  _li_error_check (Stack3 [fr]) (image_ref o) (N o) = Ok ([], fr, 0) ∧
  fst (lucky_imaging (Stack3 [fr]) li_method (with_mode "parallel" o) [])
    = Raise IndexError ∧
  fst (lucky_imaging (Stack3 [fr]) li_method (with_mode "serial" o) [])
    = Ok (img_divs (img_add fr (zeros h w)) (of_Z 1), []).
Proof.
  intros Hm Href HN Hbid Hfsr Hst Hne Hshape.
  assert (Hc : _li_error_check (Stack3 [fr]) (image_ref o) (N o) = Ok ([], fr, 0)).
  { rewrite Href. unfold _li_error_check. cbn [flatten concat].
    rewrite app_nil_r. fold (flatten fr).
    destruct (flatten fr) as [|x l] eqn:Hfl; [done|].
    cbn [first_element mbind result_bind]. rewrite HN. reflexivity. }
  split; [exact Hc|].
  destruct (select_method_shifting (lower li_method) fr [] 0 o Hm Hne Hbid)
    as (f & t1 & Hsel).
  assert (Hnf : is_fas (lower li_method) = false).
  { repeat (apply elem_of_cons in Hm as [-> | Hm]);
      [..|by apply elem_of_nil in Hm]; reflexivity. }
  split.
  - unfold lucky_imaging.
    replace (image_ref (with_mode "parallel" o)) with (image_ref o) by by destruct o.
    replace (N (with_mode "parallel" o)) with (N o) by by destruct o.
    rewrite Hc. erewrite M_bind_Ok by reflexivity. cbn beta iota zeta.
    rewrite select_method_with_mode. erewrite M_bind_Ok by exact Hsel.
    unfold shift_and_stack. erewrite M_bind_Raise; [reflexivity|].
    rewrite align_parallel. reflexivity.
  - unfold lucky_imaging.
    replace (image_ref (with_mode "serial" o)) with (image_ref o) by by destruct o.
    replace (N (with_mode "serial" o)) with (N o) by by destruct o.
    rewrite Hc. erewrite M_bind_Ok by reflexivity. cbn beta iota zeta.
    rewrite select_method_with_mode. erewrite M_bind_Ok by exact Hsel.
    unfold shift_and_stack.
    erewrite M_bind_Ok by (rewrite align_serial; reflexivity).
    cbn beta iota zeta.
    replace (fsr_below_1 (with_mode "serial" o)) with (fsr_below_1 o) by by destruct o.
    replace (stacking_method (with_mode "serial" o)) with (stacking_method o)
      by by destruct o.
    rewrite Hfsr, andb_false_r, Hnf.
    erewrite M_bind_Ok by (erewrite M_bind_Ok by reflexivity; reflexivity).
    cbn beta iota zeta.
    erewrite M_bind_Ok by (destruct (timeit (with_mode "serial" o)); reflexivity).
    unfold combine. rewrite Hst. cbn [String.eqb Ascii.eqb Bool.eqb].
    rewrite Hshape. reflexivity.
Qed.
End single_frame.

Lemma single_frame_stack_by_mode_witness :
  let o := defaults "serial" None 1 None "average" true in
  _li_error_check (Stack3 [dark_frame]) (image_ref o) (N o) = Ok ([], dark_frame, 0) ∧
  fst (lucky_imaging (H0:=real_complex) (H1:=identity_libs)
         (Stack3 [dark_frame]) "Centroid" (with_mode "parallel" o) [])
    = Raise IndexError ∧
  fst (lucky_imaging (H0:=real_complex) (H1:=identity_libs)
         (Stack3 [dark_frame]) "Centroid" (with_mode "serial" o) [])
    = Ok (img_divs (img_add dark_frame (zeros 2 2)) (of_Z 1), []).
Proof.
  intros o.
  apply (single_frame_stack_by_mode (H0:=real_complex) (H1:=identity_libs)
           dark_frame "Centroid" o 2 2);
    [vm_compute; set_solver|reflexivity|reflexivity|reflexivity|reflexivity
    |reflexivity|done|reflexivity].
Defined.

(** ** The number of frames the Fourier amplitude selection keeps *)

Lemma np_round_ge (q : Q) (z : Z) : (inject_Z z <= q)%Q → (z <= np_round q)%Z.
Proof.
  intros Hq. unfold np_round.
  assert (Hle : (z <= Qfloor q)%Z).
  { rewrite <- (Qfloor_Z z). by apply Qfloor_resp_le. }
  destruct (Qcompare _ _); [destruct (Z.even _)|..]; lia.
Qed.

Lemma np_round_mono (q q' : Q) : (q <= q')%Q → (np_round q <= np_round q')%Z.
Proof.
  intros Hq. unfold np_round.
  pose proof (Qfloor_resp_le q q' Hq) as Hfl.
  pose proof (Qfloor_le q) as Hq1. pose proof (Qlt_floor q) as Hq2.
  pose proof (Qfloor_le q') as Hq1'. pose proof (Qlt_floor q') as Hq2'.
  destruct (Z.eq_dec (Qfloor q) (Qfloor q')) as [Heq|Hne].
  - rewrite <- Heq in *.
    destruct (Qcompare_spec (q - inject_Z (Qfloor q)) (1 # 2)) as [He|Hl|Hg];
    destruct (Qcompare_spec (q' - inject_Z (Qfloor q)) (1 # 2)) as [He'|Hl'|Hg'];
      try (destruct (Z.even (Qfloor q))); try lia; exfalso; lra.
  - assert (Hlt : (Qfloor q + 1 <= Qfloor q')%Z) by lia.
    destruct (Qcompare (q - inject_Z (Qfloor q)) (1 # 2));
    destruct (Qcompare (q' - inject_Z (Qfloor q')) (1 # 2));
      try (destruct (Z.even (Qfloor q))); try (destruct (Z.even (Qfloor q'))); lia.
Qed.

(** [max(1, int(np.round(fsr * N)))]: at least one frame is kept, whatever
    [fsr]; never more than the [N ≥ 1] frames at hand when [fsr ≤ 1]; all
    of them when [fsr = 1]; and a larger [fsr] never keeps fewer frames. *)
Theorem N_frames_to_keep_bounds (fsr fsr' : Q) (n : nat) :
  1 ≤ N_frames_to_keep fsr n ∧
  ((fsr <= 1)%Q → 1 ≤ n → N_frames_to_keep fsr n ≤ n) ∧
  ((fsr == 1)%Q → 1 ≤ n → N_frames_to_keep fsr n = n) ∧
  ((fsr <= fsr')%Q → N_frames_to_keep fsr n ≤ N_frames_to_keep fsr' n).
Proof.
  assert (Hn0 : (0 <= inject_Z (Z.of_nat n))%Q).
  { change 0%Q with (inject_Z 0). rewrite <- Zle_Qle. lia. }
  split; [unfold N_frames_to_keep; lia|].
  split; [apply N_frames_to_keep_le|].
  split.
  - intros Hfsr Hn.
    assert (Hle : N_frames_to_keep fsr n ≤ n) by (apply N_frames_to_keep_le; [lra|done]).
    assert (Hge : (Z.of_nat n <= np_round (fsr * inject_Z (Z.of_nat n)))%Z).
    { apply np_round_ge. rewrite Hfsr. lra. }
    unfold N_frames_to_keep in *. lia.
  - intros Hfsr. unfold N_frames_to_keep.
    assert (Hm : (np_round (fsr * inject_Z (Z.of_nat n))
                  <= np_round (fsr' * inject_Z (Z.of_nat n)))%Z).
    { apply np_round_mono. nra. }
    lia.
Qed.

Lemma N_frames_to_keep_bounds_witness :
  1 ≤ N_frames_to_keep (1 # 20) 10 ∧
  N_frames_to_keep (1 # 20) 10 ≤ 10 ∧
  N_frames_to_keep 1 10 = 10 ∧
  N_frames_to_keep (1 # 20) 10 ≤ N_frames_to_keep (1 # 4) 10.
Proof.
  destruct (N_frames_to_keep_bounds (1 # 20) (1 # 4) 10) as (H1 & H2 & _ & H4).
  destruct (N_frames_to_keep_bounds 1 1 10) as (_ & _ & H3 & _).
  split; [exact H1|]. split; [apply H2; [cbn; lra|lia]|].
  split; [apply H3; [reflexivity|lia]|].
  apply H4. cbn; lra.
Defined.

(** ** The default cutoff frequency *)

Lemma np_round_integer (q : Q) (z : Z) : (q == inject_Z z)%Q → np_round q = z.
Proof.
  intros Hq.
  assert (H1 : (np_round q <= z)%Z) by (apply np_round_le; lra).
  assert (H2 : (z <= np_round q)%Z) by (apply np_round_ge; lra).
  lia.
Qed.

Lemma uv_map_full_cutoff (frac : Q) (h w i j : nat) :
  (frac == 1)%Q → h * h + w * w < 4 * (Nat.min h w * Nat.min h w) →
  i < h → j < w →
  cutoff_freq_px frac h w = Z.of_nat (Nat.min h w) ∧
  uv_map h w (cutoff_freq_px frac h w) i j = true.
Proof.
  intros Hfrac Hsz Hi Hj.
  assert (Hc : cutoff_freq_px frac h w = Z.of_nat (Nat.min h w)).
  { unfold cutoff_freq_px. apply np_round_integer. rewrite Hfrac. lra. }
  split; [exact Hc|]. rewrite Hc. unfold uv_map.
  apply andb_true_iff. split; [apply Z.ltb_lt; lia|].
  apply Z.ltb_lt. nia.
Qed.

(** With [cutoff_freq_frac = 1], the default, the cutoff radius is
    [min(h, w)] pixels and every frequency bin of a frame with
    [h² + w² < 4 min(h, w)²], so of every square frame, lies within the
    mask: no bin is left to the selection by peak pixel value. *)
Theorem default_cutoff_covers_every_bin (frac : Q) (h w i j : nat) :
  (frac == 1)%Q → h * h + w * w < 4 * (Nat.min h w * Nat.min h w) →
  i < h → j < w →
  cutoff_freq_px frac h w = Z.of_nat (Nat.min h w) ∧
  uv_map h w (cutoff_freq_px frac h w) i j = true.
Proof. apply uv_map_full_cutoff. Qed.

Lemma default_cutoff_covers_every_bin_witness :
  cutoff_freq_px 1 4 4 = 4%Z ∧ uv_map 4 4 (cutoff_freq_px 1 4 4) 0 3 = true.
Proof.
  apply (default_cutoff_covers_every_bin 1 4 4 0 3); [reflexivity|cbn; lia|lia|lia].
Defined.

Section default_cutoff.
Context {F C : Type} `{Scalar F} `{Complex F C} `{Libs F C}.
Context `{!ArgsortSpec F C} `{!LibsShape F C}.

Lemma csum_zeros (k : nat) :
  cadd czero czero = czero → csum (replicate k czero) = czero.
Proof.
  intros Hz. destruct k as [|k]; [reflexivity|]. cbn [replicate csum].
  induction k as [|k IH]; [reflexivity|]. cbn [replicate fold_left].
  by rewrite Hz.
Qed.

Lemma zero_acc_zero (b : bool) (k : nat) :
  cadd czero czero = czero → zero_acc b k = czero.
Proof.
  intros Hz. unfold zero_acc. destruct b; [|reflexivity].
  by rewrite csum_zeros.
Qed.

Lemma image_ext {A} (d : A) (h w : nat) (a b : list (list A)) :
  has_shape h w a → has_shape h w b →
  (∀ i j, i < h → j < w → at2 d a i j = at2 d b i j) → a = b.
Proof.
  intros Ha Hb Hab.
  rewrite <- (grid_at2_id d h w a Ha), <- (grid_at2_id d h w b Hb).
  unfold grid. apply map_ext_in. intros i Hi. apply in_seq in Hi.
  apply map_ext_in. intros j Hj. apply in_seq in Hj. apply Hab; lia.
Qed.

(** Square frames, [cutoff_freq_frac = 1] (the default), no smoothing,
    [fsr ≤ 1], a complex zero with [0 + 0 = 0]: the Fourier amplitude
    selection returns, and it returns the same image with and without
    [use_vals_outside_cutoff_freq], all else being equal. *)
Theorem fas_outside_values_unused_by_default (shifted : stack F) (ref : image F)
    (n h : nat) (o o' : options F) (t : trace) :
  cadd czero czero = czero →
  has_shape (S h) (S h) ref → Forall (has_shape (S h) (S h)) shifted →
  length shifted = n → 1 ≤ n →
  2 * buff_fas o < S h → Qeq_bool (sigma_kernel o) 0 = true →
  (fsr o <= 1)%Q → (cutoff_freq_frac o == 1)%Q →
  fsr o' = fsr o → buff_fas o' = buff_fas o →
  cutoff_freq_frac o' = cutoff_freq_frac o → sigma_kernel o' = sigma_kernel o →
  (∃ s, fst (fas_stack shifted ref n o t) = Ok s) ∧
  fst (fas_stack shifted ref n o' t) = fst (fas_stack shifted ref n o t).
Proof.
  intros Hz Href Hsh Hlen Hn Hb Hsig Hfsr Hfrac E1 E2 E3 E4.
  assert (Hk : N_frames_to_keep (fsr o) n ≤ n) by by apply N_frames_to_keep_le.
  destruct (fas_stack_run shifted ref n h h o t Href Hsh Hlen Hb Hb Hsig Hk)
    as (s1 & t1 & Hrun1 & Hshape1 & Hin1 & _).
  destruct (fas_stack_run shifted ref n h h o' t Href Hsh Hlen
              ltac:(by rewrite E2) ltac:(by rewrite E2) ltac:(by rewrite E4)
              ltac:(by rewrite E1))
    as (s2 & t2 & Hrun2 & Hshape2 & Hin2 & _).
  cbv zeta in Hrun1, Hin1, Hrun2, Hin2.
  rewrite ?E1, ?E2, ?E3 in Hrun2.
  rewrite ?E1, ?E2, ?E3 in Hin2.
  assert (Heq : s2 = s1).
  { apply (image_ext czero (S h) (S h)); [done|done|].
    intros i j Hi Hj.
    assert (Hm : uv_map (S h) (S h) (cutoff_freq_px (cutoff_freq_frac o) (S h) (S h)) i j
                 = true).
    { apply uv_map_full_cutoff; [done| |done|done].
      rewrite Nat.min_id. lia. }
    rewrite (Hin1 i j Hi Hj Hm), (Hin2 i j Hi Hj Hm).
    by rewrite !zero_acc_zero. }
  rewrite Hrun1, Hrun2, Heq. split; [eauto|reflexivity].
Qed.
End default_cutoff.

Lemma fas_outside_values_unused_by_default_witness :
  let o' := Options "serial" (Some fas_reference) 1 None None (Q2Qc (1 # 4))
                    false 0 0 1 0 false "average" true in
  (∃ s, fst (fas_stack (H0:=real_complex) (H1:=identity_libs)
               fas_frames fas_reference 2 fas_options []) = Ok s) ∧
  fst (fas_stack (H0:=real_complex) (H1:=identity_libs)
         fas_frames fas_reference 2 o' [])
    = fst (fas_stack (H0:=real_complex) (H1:=identity_libs)
             fas_frames fas_reference 2 fas_options []).
Proof.
  intros o'.
  apply (fas_outside_values_unused_by_default (H0:=real_complex)
           (H1:=identity_libs) fas_frames fas_reference 2 1 fas_options o' []).
  - vm_compute; reflexivity.
  - split; repeat constructor.
  - repeat constructor.
  - reflexivity.
  - lia.
  - cbn. lia.
  - reflexivity.
  - cbn. apply Qle_refl.
  - reflexivity.
  - reflexivity.
  - reflexivity.
  - reflexivity.
  - reflexivity.
Defined.

(** ** [fftshift] applied twice *)

Lemma fftshift1_twice {A} (l : list A) :
  fftshift1 (fftshift1 l)
    = drop (length l mod 2) l ++ take (length l mod 2) l.
Proof.
  unfold fftshift1 at 1. rewrite fftshift1_length. unfold fftshift1.
  set (n := length l). set (q := n / 2). set (p := n - q).
  assert (Hn : n = 2 * q + n mod 2) by (unfold q; apply Nat.div_mod_eq).
  assert (Hm : n mod 2 < 2) by (apply Nat.mod_upper_bound; lia).
  assert (Hpq : p - q = n mod 2) by (unfold p; lia).
  assert (Hqp : q ≤ p ∧ p ≤ n) by (unfold p; lia).
  assert (Hmp : n mod 2 ≤ p) by (unfold p; lia).
  assert (Hlen : length (drop p l) = q) by (rewrite length_drop; fold n; unfold p; lia).
  assert (Hlt : length (take p l) = p) by (rewrite length_take; fold n; unfold p; lia).
  clearbody p q n.
  rewrite skipn_app, firstn_app, Hlen.
  rewrite (skipn_all2 (drop p l)) by (rewrite Hlen; lia).
  rewrite (firstn_all2 (drop p l)) by (rewrite Hlen; lia).
  rewrite Hpq. cbn [app].
  change (firstn (n mod 2) (take p l)) with (take (n mod 2) (take p l)).
  rewrite take_take. rewrite Nat.min_l by exact Hmp.
  rewrite app_assoc. f_equal.
  rewrite <- (take_drop p l) at 3.
  change (skipn (n mod 2) (take p l)) with (drop (n mod 2) (take p l)).
  rewrite (drop_app_le (take p l)) by (rewrite Hlt; exact Hmp). reflexivity.
Qed.

Lemma map_fftshift1 {A B} (f : A → B) (l : list A) :
  map f (fftshift1 l) = fftshift1 (map f l).
Proof.
  unfold fftshift1. rewrite length_map, map_app.
  change (map f (drop ?n l)) with (f <$> drop n l).
  change (map f (take ?n l)) with (f <$> take n l).
  by rewrite fmap_drop, fmap_take.
Qed.

Lemma rotate_by_parity {A} (n : nat) (l : list A) :
  drop (n mod 2) l ++ take (n mod 2) l
    = if Nat.even n then l else drop 1 l ++ take 1 l.
Proof.
  destruct (Nat.even n) eqn:He.
  - apply Nat.even_spec in He as [k ->].
    rewrite Nat.mul_comm, Nat.Div0.mod_mul. cbn. by rewrite app_nil_r.
  - assert (Ho : Nat.odd n = true) by (rewrite <- Nat.negb_even, He; done).
    apply Nat.odd_spec in Ho as [k ->].
    replace ((2 * k + 1) mod 2) with 1; [done|].
    rewrite Nat.add_comm, Nat.mul_comm, Nat.Div0.mod_add. reflexivity.
Qed.

(** The Fourier amplitude selection applies [fftshift] to the spectra and
    [fftshift] again, not its inverse, before the inverse transform.
    Applied twice, [fftshift] restores an axis of even length and rotates
    an axis of odd length by one position. *)
Theorem fftshift2_twice {A} (h w : nat) (a : list (list A)) :
  has_shape h w a →
  fftshift2 (fftshift2 a)
    = map (λ r, if Nat.even w then r else drop 1 r ++ take 1 r)
          (if Nat.even h then a else drop 1 a ++ take 1 a).
Proof.
  intros [Hh Hw]. unfold fftshift2.
  rewrite map_fftshift1, fftshift1_twice, map_map, length_map, Hh.
  assert (Hrows : map (λ r, fftshift1 (fftshift1 r)) a
                  = map (λ r, if Nat.even w then r else drop 1 r ++ take 1 r) a).
  { apply map_ext_in. intros r Hr. rewrite fftshift1_twice.
    rewrite Forall_forall in Hw. rewrite (Hw r) by by apply list_elem_of_In.
    apply rotate_by_parity. }
  rewrite Hrows, rotate_by_parity.
  destruct (Nat.even h); [reflexivity|].
  rewrite map_app.
  change (map ?f (drop ?n ?l)) with (f <$> drop n l).
  change (map ?f (take ?n ?l)) with (f <$> take n l).
  by rewrite !fmap_drop, !fmap_take.
Qed.

Lemma fftshift2_twice_witness :
  fftshift2 (fftshift2 [[1; 2; 3]; [4; 5; 6]]) = [[2; 3; 1]; [5; 6; 4]].
Proof.
  apply (fftshift2_twice 2 3 [[1; 2; 3]; [4; 5; 6]]). split; repeat constructor.
Defined.
